(** * colleges-api: a shallow embedding of [index.js]

    The service keeps one array of CSV rows in memory and answers keyword
    search, state / district filters and distinct-value listings, with
    pagination and a ten-minute response cache in front of them.

    Conventions of the embedding.
    - A JS string is a [string]: a sequence of code units.  The model covers
      code units below 256 (ASCII and the Latin-1 supplement), on which
      [toLowerCase], [trim] and the two regular expressions of
      [cleanCollegeName] act character by character.
    - A JS number is a [jsnum]: an integer, one of the two infinities, or NaN.
      The arithmetic of the handlers ([-], [*], [/] followed by [Math.ceil])
      stays on integers for every integer operand.  Doubles agree with [Z] on
      integers of magnitude below 2^53, which is the range the model is exact
      on; an offset beyond it exceeds the length of any array, so the slice
      is empty there on both sides.  Numbers that are not integers, and the
      rounding, printing and overflow of integers beyond 2^53, are outside
      the model.  The two zeros are not told apart (JSON prints both as
      [0]).
    - A CSV row is a finite map from column names to strings; reading a column
      the row does not have yields [undefined], and calling a string method on
      it throws (the handler then answers 500 through the error middleware).
    - Handlers are state-passing functions over the module-level [colleges]
      array and the [NodeCache] instance.  Objects built by a handler are
      fresh ([filter], [map], [slice] and the spread copy; the cache clones
      what it stores and what it returns), so plain values model them. *)

From Stdlib Require Import ZArith Ascii String List Lia.
From stdpp Require Import base option list gmap strings pretty sorting.

Local Open Scope string_scope.
Local Open Scope Z_scope.
Local Open Scope list_scope.

(** ** JS strings *)

Module JsString.

Definition chars (s : string) : list ascii := list_ascii_of_string s.
Definition str (l : list ascii) : string := string_of_list_ascii l.

Definition code (c : ascii) : N := N_of_ascii c.

Definition is_char (k c : ascii) : bool := Ascii.eqb k c.
Global Arguments is_char : simpl never.

(** WhiteSpace and LineTerminator code units below 256: TAB, LF, VT, FF, CR,
    SP and NBSP.  This is what [String.prototype.trim] strips and what the
    class [\s] matches. *)
Definition is_white (c : ascii) : bool :=
  let n := code c in
  ((9 <=? n) && (n <=? 13) || (n =? 32) || (n =? 160))%N.

(** [toLowerCase] on one code unit: A-Z, and the Latin-1 capitals
    U+00C0..U+00DE except the multiplication sign U+00D7. *)
Definition lower_char (c : ascii) : ascii :=
  let n := code c in
  if ((65 <=? n) && (n <=? 90)
      || (192 <=? n) && (n <=? 222) && negb (n =? 215))%N
  then ascii_of_N (n + 32) else c.

Global Arguments is_white : simpl never.
Global Arguments lower_char : simpl never.

Definition toLowerCase (s : string) : string := str (map lower_char (chars s)).

Fixpoint ltrim (l : list ascii) : list ascii :=
  match l with
  | c :: t => if is_white c then ltrim t else l
  | [] => []
  end.

Definition rtrim (l : list ascii) : list ascii := reverse (ltrim (reverse l)).

Definition trim_chars (l : list ascii) : list ascii := rtrim (ltrim l).

Definition trim (s : string) : string := str (trim_chars (chars s)).

Fixpoint starts_with (p s : list ascii) : bool :=
  match p, s with
  | [], _ => true
  | a :: p', b :: s' => Ascii.eqb a b && starts_with p' s'
  | _ :: _, [] => false
  end.

Fixpoint includes_chars (s p : list ascii) : bool :=
  starts_with p s ||
  match s with
  | [] => false
  | _ :: t => includes_chars t p
  end.

(** [s.includes(p)] *)
Definition includes (s p : string) : bool := includes_chars (chars s) (chars p).

(** *** [String.prototype.replace] with a global regular expression and the
    empty replacement.

    [m] is the matcher of the expression anchored at the head of its
    argument: [m s = Some r] when the expression matches a prefix of [s],
    [r] being what follows the match.  The scan goes left to right; after a
    match it resumes behind the match, otherwise it keeps the current
    character and moves on by one.  Both expressions of this program match
    at least two characters, so [fuel = length s] is enough
    (see [replace_all_cons]). *)
Fixpoint replace_all_fuel (m : list ascii -> option (list ascii))
         (fuel : nat) (s : list ascii) : list ascii :=
  match fuel with
  | O => s
  | S fuel' =>
      match s with
      | [] => []
      | c :: t =>
          match m s with
          | Some r => replace_all_fuel m fuel' r
          | None => c :: replace_all_fuel m fuel' t
          end
      end
  end.

Definition replace_all (m : list ascii -> option (list ascii))
           (s : list ascii) : list ascii :=
  replace_all_fuel m (length s) s.

End JsString.

Import JsString.

(** ** The name normalizer *)

(** The tail [[^>]*\)] of the first expression, with the backtracking of a
    greedy star: first try to take the current character into the star (it
    must not be [>]) and match the rest; if that fails, the star stops here
    and [)] has to be the current character. *)
Fixpoint star_then_paren (s : list ascii) : option (list ascii) :=
  match s with
  | [] => None
  | c :: t =>
      match (if is_char ">" c then None else star_then_paren t) with
      | Some r => Some r
      | None => if is_char ")" c then Some t else None
      end
  end.

(** [/\:[^>]*\)/ig] at the head of [s].  The expression has no letters, so
    the [i] flag changes nothing. *)
Definition match_annotation (s : list ascii) : option (list ascii) :=
  match s with
  | c :: t => if is_char ":" c then star_then_paren t else None
  | [] => None
  end.

(** [/(\(Id)/ig] at the head of [s]: an opening parenthesis, [I] or [i],
    [D] or [d]. *)
Definition match_id_marker (s : list ascii) : option (list ascii) :=
  match s with
  | p :: i :: d :: r =>
      if is_char "(" p
         && (is_char "I" i || is_char "i" i)
         && (is_char "D" d || is_char "d" d)
      then Some r else None
  | _ => None
  end.

(** [.replace(/\:[^>]*\)/ig, "")] and [.replace(/(\(Id)/ig, "")] *)
Abbreviation strip_annotations := (replace_all match_annotation).
Abbreviation strip_id_markers := (replace_all match_id_marker).

(** [name.replace(/\:[^>]*\)/ig, "").replace(/(\(Id)/ig, "").trim()] *)
Definition clean_chars (l : list ascii) : list ascii :=
  trim_chars (strip_id_markers (strip_annotations l)).

Definition cleanCollegeName (name : string) : string :=
  str (clean_chars (chars name)).

(** ** JS numbers and values *)

Inductive jsnum := Fin (z : Z) | PosInf | NegInf | NaN.

(** A value of a JSON body or of a parsed query string, as far as the
    handlers look at it: a number or a string.  Booleans, [null], arrays and
    objects (in a body, or made by the query parser from repeated or
    bracketed keys) are left out of the model. *)
Inductive jsval := JNum (n : jsnum) | JStr (s : string).

Global Instance jsnum_eq_dec : EqDecision jsnum.
Proof. solve_decision. Defined.
Global Instance jsval_eq_dec : EqDecision jsval.
Proof. solve_decision. Defined.

Module JsNum.

Definition sgn (a : jsnum) : Z :=
  match a with
  | Fin z => Z.sgn z
  | PosInf => 1
  | NegInf => -1
  | NaN => 0
  end.

Definition inf_of_sign (s : Z) : jsnum :=
  if 0 <? s then PosInf else if s <? 0 then NegInf else NaN.

(** [a - b] *)
Definition sub (a b : jsnum) : jsnum :=
  match a, b with
  | NaN, _ | _, NaN => NaN
  | Fin x, Fin y => Fin (x - y)
  | PosInf, PosInf | NegInf, NegInf => NaN
  | PosInf, _ | _, NegInf => PosInf
  | NegInf, _ | _, PosInf => NegInf
  end.

(** [a * b] *)
Definition mul (a b : jsnum) : jsnum :=
  match a, b with
  | NaN, _ | _, NaN => NaN
  | Fin x, Fin y => Fin (x * y)
  | _, _ => inf_of_sign (sgn a * sgn b)
  end.

(** [Math.ceil(n / d)] for an integer [n] (here always an array length).
    For a non-zero integer [d] the quotient is rounded up; [n / 0] is
    [Infinity], or [NaN] when [n] is 0 too; [n / ±Infinity] is 0. *)
Definition ceil_div (n : Z) (d : jsnum) : jsnum :=
  match d with
  | NaN => NaN
  | PosInf | NegInf => Fin 0
  | Fin 0 => inf_of_sign (Z.sgn n)
  | Fin z => Fin (- ((- n) / z))
  end.

Definition digit_val (c : ascii) : option Z :=
  let n := code c in
  if ((48 <=? n) && (n <=? 57))%N then Some (Z.of_N n - 48) else None.

Global Arguments digit_val : simpl never.

Fixpoint digits_val (acc : Z) (l : list ascii) : option Z :=
  match l with
  | [] => Some acc
  | c :: t =>
      match digit_val c with
      | Some d => digits_val (10 * acc + d) t
      | None => None
      end
  end.

(** [[0-9]+] *)
Definition parse_digits (l : list ascii) : option Z :=
  match l with
  | [] => None
  | _ :: _ => digits_val 0 l
  end.

(** The strings of [/^[-+]?[0-9]+$/], with the integer they denote. *)
Definition parse_int_chars (l : list ascii) : option Z :=
  match l with
  | c :: t =>
      if is_char "-" c then Z.opp <$> parse_digits t
      else if is_char "+" c then parse_digits t
      else parse_digits l
  | [] => None
  end.

Definition parse_int (s : string) : option Z := parse_int_chars (chars s).

(** [Number(s)]: surrounding white space is ignored, the empty string is 0,
    a signed run of digits is that integer, [Infinity] with an optional
    sign is an infinity.  This is [Number] on the texts of safe integers
    ([safe_integer] below) and on the texts [not_numeric] below describes.
    Outside them it is not: fractions, exponents and radix prefixes are not
    modelled (they come out as [NaN] here, where the code has a number), and
    a run of digits beyond 2^53 denotes its integer here, where the code has
    the nearest double, [Infinity] from about 1.8e308 on.  The statements
    that depend on the number a text denotes are made for safe integers, and
    a premise that a text is no number is stated with [not_numeric]. *)
Definition of_string (s : string) : jsnum :=
  let t := trim s in
  if decide (t = "") then Fin 0
  else match parse_int t with
       | Some z => Fin z
       | None =>
           if decide (t = "Infinity" \/ t = "+Infinity") then PosInf
           else if decide (t = "-Infinity") then NegInf
           else NaN
       end.

(** [String(n)].  Plain digits, which is what the code prints for a safe
    integer.  Beyond 2^53 the code prints the shortest digits that read back
    as the same double, and from [1e21] on the exponent form ([1e+21]);
    neither is modelled, so what depends on the text of a number is stated
    for safe integers. *)
Definition to_string (n : jsnum) : string :=
  match n with
  | Fin z => pretty z
  | PosInf => "Infinity"
  | NegInf => "-Infinity"
  | NaN => "NaN"
  end.

End JsNum.

(** The coercion applied by [-], [*], [/] and by [Number(v)]. *)
Definition ToNumber (v : jsval) : jsnum :=
  match v with
  | JNum n => n
  | JStr s => JsNum.of_string s
  end.

(** The coercion applied by a template literal. *)
Definition ToString (v : jsval) : string :=
  match v with
  | JNum n => JsNum.to_string n
  | JStr s => s
  end.

(** ** [Array.prototype.slice] *)

(** A [start] or [end] argument resolved against the length: truncated
    ([NaN] is 0), counted from the end when negative, clamped to [0..len]. *)
Definition rel_index (len : Z) (x : jsnum) : Z :=
  match x with
  | NaN | NegInf => 0
  | PosInf => len
  | Fin z => if z <? 0 then Z.max (len + z) 0 else Z.min z len
  end.

Definition slice {A} (l : list A) (start end_ : jsnum) : list A :=
  let len := Z.of_nat (length l) in
  let k := rel_index len start in
  let final := rel_index len end_ in
  take (Z.to_nat (final - k)) (drop (Z.to_nat k) l).

(** ** Rows and the two array callbacks that can throw *)

Abbreviation college := (gmap string string).

(** [arr.filter(p)], where [p] may throw: [None] is the exception. *)
Fixpoint filter_ex {A} (p : A -> option bool) (l : list A) : option (list A) :=
  match l with
  | [] => Some []
  | x :: t =>
      b ← p x;
      r ← filter_ex p t;
      Some (if b : bool then x :: r else r)
  end.

(** [arr.map(f)], where [f] may throw. *)
Fixpoint map_ex {A B} (f : A -> option B) (l : list A) : option (list B) :=
  match l with
  | [] => Some []
  | x :: t =>
      y ← f x;
      r ← map_ex f t;
      Some (y :: r)
  end.

(** [{...college, name: cleanCollegeName(college.name)}]; throws when the row
    has no [name]. *)
Definition with_clean_name (c : college) : option college :=
  name ← c !! "name";
  Some (<["name" := cleanCollegeName name]> c).

(** The predicate of [/colleges/search]. *)
Definition name_includes (keyword : string) (c : college) : option bool :=
  name ← c !! "name";
  Some (includes (toLowerCase name) (toLowerCase keyword)).

(** The predicate of the state and district filters:
    [college[field].toLowerCase() === value.toLowerCase()]. *)
Definition field_matches (field value : string) (c : college) : option bool :=
  v ← c !! field;
  Some (bool_decide (toLowerCase v = toLowerCase value)).

Definition search_result (colleges : list college) (keyword : string)
  : option (list college) :=
  hits ← filter_ex (name_includes keyword) colleges;
  map_ex with_clean_name hits.

Definition filter_result (field value : string) (colleges : list college)
  : option (list college) :=
  hits ← filter_ex (field_matches field value) colleges;
  map_ex with_clean_name hits.

(** ** Pagination and the response envelope *)

Record response := Response {
  data : list college;
  page : jsval;
  limit : jsval;
  total : nat;
  totalPages : jsnum
}.

(** [result.slice((page - 1) * limit, page * limit)] *)
Definition paginate {A} (result : list A) (page limit : jsval) : list A :=
  slice result
        (JsNum.mul (JsNum.sub (ToNumber page) (Fin 1)) (ToNumber limit))
        (JsNum.mul (ToNumber page) (ToNumber limit)).

(** [Math.ceil(result.length / limit)] *)
Definition total_pages {A} (result : list A) (limit : jsval) : jsnum :=
  JsNum.ceil_div (Z.of_nat (length result)) (ToNumber limit).

(** The envelope of [/colleges/search]: [page] and [limit] are echoed as they
    were received. *)
Definition search_response (result : list college) (page limit : jsval) : response :=
  {| data := paginate result page limit;
     page := page;
     limit := limit;
     total := length result;
     totalPages := total_pages result limit |}.

(** The envelope of the state and district routes: [page] and [limit] go
    through [Number]. *)
Definition filter_response (result : list college) (page limit : jsval) : response :=
  {| data := paginate result page limit;
     page := JNum (ToNumber page);
     limit := JNum (ToNumber limit);
     total := length result;
     totalPages := total_pages result limit |}.

(** ** Distinct-value listings *)

(** [new Set(values)] spread back into an array: first occurrences, in
    insertion order. *)
Definition Set_add {A} `{EqDecision A} (acc : list A) (x : A) : list A :=
  if decide (x ∈ acc) then acc else acc ++ [x].

Definition new_Set {A} `{EqDecision A} (l : list A) : list A :=
  fold_left Set_add l [].

(** The order of [Array.prototype.sort()] without a comparator: strings by
    code units, [undefined] after every string. *)
Definition sort_le (a b : option string) : Prop :=
  match a, b with
  | Some x, Some y => String.le x y
  | _, None => True
  | None, Some _ => False
  end.

Global Instance sort_le_dec : RelDecision sort_le.
Proof. intros [x|] [y|]; simpl; apply _. Defined.

(** The sort acts on an array without repetitions, so the result is the one
    ascending arrangement whatever algorithm the engine runs
    (see [sorted_unique_arrangement]). *)
Definition sort (l : list (option string)) : list (option string) :=
  merge_sort sort_le l.

(** [[...new Set(colleges.map(college => college.state))].sort()] *)
Definition all_states (colleges : list college) : list (option string) :=
  sort (new_Set (map (fun c : college => c !! "state") colleges)).

(** The listing of [/districts/:state]. *)
Definition districts_of (state : string) (colleges : list college)
  : option (list (option string)) :=
  hits ← filter_ex (field_matches "state" state) colleges;
  Some (sort (new_Set (map (fun c : college => c !! "district") hits))).

(** ** express-validator chains *)

Module Validator.

(** The string a field value is turned into before a validator or a
    sanitizer sees it: a missing field and NaN give the empty string, a
    number gives [String(n)] (exact for safe integers, see
    [JsNum.to_string]; the statements on what the chains accept are made for
    bodies whose numbers are safe, [safe_body] below). *)
Definition to_string (v : option jsval) : string :=
  match v with
  | None => ""
  | Some (JStr s) => s
  | Some (JNum NaN) => ""
  | Some (JNum n) => JsNum.to_string n
  end.

Definition isString (v : option jsval) : bool :=
  match v with
  | Some (JStr _) => true
  | _ => false
  end.

Definition notEmpty (s : string) : bool := negb (bool_decide (s = "")).

(** [isInt({min, max})]: the string form matches [/^[-+]?[0-9]+$/] and its
    numeric value lies in the range. *)
Definition isInt (min : Z) (max : option Z) (v : option jsval) : bool :=
  match JsNum.parse_int (to_string v) with
  | Some z => (min <=? z) && from_option (Z.leb z) true max
  | None => false
  end.

(** [body(field).optional().isInt({min, max})]: the list of errors of the
    chain, each naming its field. *)
Definition optional_int (field : string) (min : Z) (max : option Z)
           (v : option jsval) : list string :=
  match v with
  | None => []
  | Some _ => if isInt min max v then [] else [field]
  end.

(** [body('keyword').isString().trim().notEmpty()]: the errors, and the
    sanitized value the chain writes back into the body. *)
Definition keyword_chain (v : option jsval) : list string * string :=
  let trimmed := trim (to_string v) in
  ((if isString v then [] else ["keyword"])
     ++ (if notEmpty trimmed then [] else ["keyword"]),
   trimmed).

(** The [page] and [limit] chains, shared by the three paginated routes.
    They read the request body. *)
Definition paging_chains (body : gmap string jsval) : list string :=
  optional_int "page" 1 None (body !! "page")
  ++ optional_int "limit" 1 (Some 100) (body !! "limit").

End Validator.

(** ** Replies, the cache and the server state *)

Inductive payload :=
| Text (s : string)
| TotalCount (n : nat)
| Errors (fields : list string)
| Paged (r : response)
| Names (l : list (option string)).

Inductive reply := Reply (status : Z) (body : payload).

(** [new NodeCache({ stdTTL: 600 })]: every entry carries the time (in
    milliseconds) at which it stops being returned. *)
Module NodeCache.

Definition stdTTL : Z := 600.

Definition get (now : Z) (key : string) (c : gmap string (payload * Z))
  : option payload :=
  match c !! key with
  | Some (v, expires) => if expires <? now then None else Some v
  | None => None
  end.

Definition set (now : Z) (key : string) (v : payload)
           (c : gmap string (payload * Z)) : gmap string (payload * Z) :=
  <[key := (v, now + stdTTL * 1000)]> c.

End NodeCache.

Record server := Server {
  colleges : list college;
  cache : gmap string (payload * Z)
}.

Definition with_cache (st : server) (c : gmap string (payload * Z)) : server :=
  {| colleges := colleges st; cache := c |}.

(** What the error-handling middleware sends when a handler throws. *)
Definition something_broke : reply := Reply 500 (Text "Something broke!").

(** The key of a paginated route, [`search:${keyword}:${page}:${limit}`],
    [`state:${state}:${page}:${limit}`] or
    [`district:${district}:${page}:${limit}`]. *)
Definition cache_key (tag value : string) (page limit : jsval) : string :=
  tag +:+ ":" +:+ value +:+ ":" +:+ ToString page +:+ ":" +:+ ToString limit.

(** ** Route handlers *)

(** [GET /] *)
Definition get_root (st : server) : reply * server :=
  (Reply 200 (Text "Colleges API : Developed by PrasadBobby"), st).

(** [GET /colleges/total] *)
Definition get_total (st : server) : reply * server :=
  (Reply 200 (TotalCount (length (colleges st))), st).

(** [POST /colleges/search] *)
Definition post_search (now : Z) (body0 : gmap string jsval) (st : server)
  : reply * server :=
  let '(kw_errors, trimmed) := Validator.keyword_chain (body0 !! "keyword") in
  let body := <["keyword" := JStr trimmed]> body0 in
  match kw_errors ++ Validator.paging_chains body with
  | (_ :: _) as errors => (Reply 400 (Errors errors), st)
  | [] =>
      let keyword := trimmed in
      let page := default (JNum (Fin 1)) (body !! "page") in
      let limit := default (JNum (Fin 10)) (body !! "limit") in
      let cacheKey := cache_key "search" keyword page limit in
      match NodeCache.get now cacheKey (cache st) with
      | Some cachedResult => (Reply 200 cachedResult, st)
      | None =>
          match search_result (colleges st) keyword with
          | None => (something_broke, st)
          | Some result =>
              let response := Paged (search_response result page limit) in
              (Reply 200 response,
               with_cache st (NodeCache.set now cacheKey response (cache st)))
          end
      end
  end.

(** [GET /colleges/state/:state] and [GET /colleges/district/:district]: the
    two handlers are the same text up to the name [field] of the route
    parameter, which is also the cache tag and the column compared.  The
    validation chains look at the body; [page] and [limit] are then taken
    from the query string. *)
Definition get_by_field (field : string) (now : Z) (value : string)
           (query : gmap string string) (body : gmap string jsval) (st : server)
  : reply * server :=
  match Validator.paging_chains body with
  | (_ :: _) as errors => (Reply 400 (Errors errors), st)
  | [] =>
      let page := default (JNum (Fin 1)) (JStr <$> query !! "page") in
      let limit := default (JNum (Fin 10)) (JStr <$> query !! "limit") in
      let cacheKey := cache_key field value page limit in
      match NodeCache.get now cacheKey (cache st) with
      | Some cachedResult => (Reply 200 cachedResult, st)
      | None =>
          match filter_result field value (colleges st) with
          | None => (something_broke, st)
          | Some result =>
              let response := Paged (filter_response result page limit) in
              (Reply 200 response,
               with_cache st (NodeCache.set now cacheKey response (cache st)))
          end
      end
  end.

Definition get_state := get_by_field "state".
Definition get_district := get_by_field "district".

(** [GET /allstates] *)
Definition get_allstates (now : Z) (st : server) : reply * server :=
  let cacheKey := "allstates" in
  match NodeCache.get now cacheKey (cache st) with
  | Some cachedResult => (Reply 200 cachedResult, st)
  | None =>
      let result := Names (all_states (colleges st)) in
      (Reply 200 result, with_cache st (NodeCache.set now cacheKey result (cache st)))
  end.

(** [GET /districts/:state] *)
Definition get_districts (now : Z) (state : string) (st : server) : reply * server :=
  let cacheKey := "districts:" +:+ state in
  match NodeCache.get now cacheKey (cache st) with
  | Some cachedResult => (Reply 200 cachedResult, st)
  | None =>
      match districts_of state (colleges st) with
      | None => (something_broke, st)
      | Some l =>
          let result := Names l in
          (Reply 200 result, with_cache st (NodeCache.set now cacheKey result (cache st)))
      end
  end.

(** ** Start-up and the event loop *)

Inductive request :=
| GetRoot
| GetTotal
| PostSearch (body : gmap string jsval)
| GetState (state : string) (query : gmap string string) (body : gmap string jsval)
| GetDistrict (district : string) (query : gmap string string) (body : gmap string jsval)
| GetAllStates
| GetDistricts (state : string).

Definition handle (now : Z) (r : request) (st : server) : reply * server :=
  match r with
  | GetRoot => get_root st
  | GetTotal => get_total st
  | PostSearch body => post_search now body st
  | GetState state query body => get_state now state query body st
  | GetDistrict district query body => get_district now district query body st
  | GetAllStates => get_allstates now st
  | GetDistricts state => get_districts now state st
  end.

(** The callbacks the module registers while it is evaluated.  [CsvRows] is
    one chunk of the file going through the parser: the ['data'] listener
    runs for each of its rows, and nothing else runs in between.  [CsvEnd]
    is the ['end'] listener, [Incoming] a request reaching its route at clock
    time [now]. *)
Inductive event :=
| CsvRows (rows : list college)
| CsvEnd
| Incoming (now : Z) (r : request).

(** [colleges.push(row)] *)
Definition on_data (st : server) (row : college) : server :=
  {| colleges := colleges st ++ [row]; cache := cache st |}.

Definition step (st : server) (e : event) : server * option reply :=
  match e with
  | CsvRows rows => (fold_left on_data rows st, None)
  | CsvEnd => (st, None)
  | Incoming now r => let '(rep, st') := handle now r st in (st', Some rep)
  end.

Fixpoint run (st : server) (evs : list event) : server * list reply :=
  match evs with
  | [] => (st, [])
  | e :: rest =>
      let '(st1, out) := step st e in
      let '(st2, outs) := run st1 rest in
      (st2, from_option (fun r => [r]) [] out ++ outs)
  end.

(** The state once the module has been evaluated: [colleges] is the empty
    array, the cache is empty, the read stream has been opened and
    [app.listen] has been called. *)
Definition boot : server := {| colleges := []; cache := ∅ |}.

(** The rows delivered by the ['data'] events of a run. *)
Definition rows_of (evs : list event) : list college :=
  concat (map (fun e => match e with CsvRows rows => rows | _ => [] end) evs).

(** ** Vocabulary of the statements *)

(** Somewhere in [l] a colon is followed, with no [>] in between, by a
    closing parenthesis: the first expression matches somewhere. *)
Definition has_annotation (l : list ascii) : Prop :=
  exists pre body post, l = pre ++ ":"%char :: body ++ ")"%char :: post /\ ">"%char ∉ body.

(** Somewhere in [l] stands [(Id] in some letter case. *)
Definition has_id_marker (l : list ascii) : Prop :=
  exists pre i d post,
    l = pre ++ "("%char :: i :: d :: post
    /\ (i = "I" \/ i = "i")%char /\ (d = "D" \/ d = "d")%char.

(** A closing parenthesis can be reached from the head of [s] without
    crossing [>]. *)
Definition paren_reachable (s : list ascii) : Prop :=
  exists body post, s = body ++ ")"%char :: post /\ ">"%char ∉ body.

(** No white space at either end. *)
Definition trimmed (l : list ascii) : Prop :=
  (forall c t, l = c :: t -> is_white c = false)
  /\ (forall c t, l = t ++ [c] -> is_white c = false).

Definition all_white (l : list ascii) : Prop := Forall (fun c => is_white c = true) l.

(** [(Id] in some letter case stands at the head of [s]. *)
Definition id_marker_at (s : list ascii) : Prop :=
  exists i d t, s = "("%char :: i :: d :: t
                /\ (i = "I" \/ i = "i")%char /\ (d = "D" \/ d = "d")%char.

(** Some suffix of [l] satisfies [p]. *)
Fixpoint any_suffix (p : list ascii -> bool) (l : list ascii) : bool :=
  p l ||
  match l with
  | [] => false
  | _ :: t => any_suffix p t
  end.

Definition has_annotation_b (l : list ascii) : bool :=
  any_suffix (fun s => bool_decide (is_Some (match_annotation s))) l.

Definition has_id_marker_b (l : list ascii) : bool :=
  any_suffix (fun s => bool_decide (is_Some (match_id_marker s))) l.

(** [t] is [s] with some characters removed, none of them [>]. *)
Inductive thinned : list ascii -> list ascii -> Prop :=
| thinned_nil : thinned [] []
| thinned_keep c s t : thinned s t -> thinned (c :: s) (c :: t)
| thinned_drop c s t : c <> ">"%char -> thinned s t -> thinned (c :: s) t.

(** The normalizer as the specification words it: an annotation "begins with
    a colon and ends at the next closing parenthesis". *)
Fixpoint until_next_paren (s : list ascii) : option (list ascii) :=
  match s with
  | [] => None
  | c :: t => if is_char ")" c then Some t else until_next_paren t
  end.

Definition spec_match_annotation (s : list ascii) : option (list ascii) :=
  match s with
  | c :: t => if is_char ":" c then until_next_paren t else None
  | [] => None
  end.

Definition spec_cleanName (name : string) : string :=
  str (trim_chars (replace_all match_id_marker
                     (replace_all spec_match_annotation (chars name)))).

(** The [name] of a row ([""] stands in where the row has none; the
    statements that use it assume the column is there). *)
Definition name_of (c : college) : string := default "" (c !! "name").

(** [name] contains [keyword] case-insensitively: some stretch of [name] is
    [keyword] up to the case of its letters. *)
Definition contains_ci (name keyword : string) : Prop :=
  exists pre mid post,
    chars name = pre ++ mid ++ post
    /\ map lower_char mid = map lower_char (chars keyword).

(** A row with its name normalized, the other columns as they are. *)
Definition normalized (c : college) : college :=
  <["name" := cleanCollegeName (name_of c)]> c.

(** The column [field] of row [c] is [value] up to the case of letters. *)
Definition field_is (field value : string) (c : college) : Prop :=
  exists v, c !! field = Some v /\ toLowerCase v = toLowerCase value.

Global Instance field_is_dec (field value : string) (c : college) :
  Decision (field_is field value c).
Proof.
  unfold field_is. destruct (c !! field) as [v|].
  - destruct (decide (toLowerCase v = toLowerCase value)) as [E|E].
    + left. by exists v.
    + right. intros (v' & [= <-] & E'). done.
  - right. by intros (v' & [=] & _).
Defined.

(** The characters of a decimal integer literal: digits and signs. *)
Definition int_char (c : ascii) : Prop :=
  is_Some (JsNum.digit_val c) \/ c = "-"%char \/ c = "+"%char.

(** [v] is an integer between [min] and [max], written as a JSON number or
    as a string of [/^[-+]?[0-9]+$/]. *)
Definition int_in_range (min : Z) (max : option Z) (v : jsval) (z : Z) : Prop :=
  (v = JNum (Fin z) \/ exists s, v = JStr s /\ JsNum.parse_int s = Some z)
  /\ min <= z /\ forall m, max = Some m -> z <= m.

Definition optional_int_in_range (min : Z) (max : option Z) (v : option jsval) : Prop :=
  match v with
  | None => True
  | Some v => exists z, int_in_range min max v z
  end.

(** The parameters [/colleges/search] is meant to accept. *)
Definition valid_search_body (body : gmap string jsval) : Prop :=
  (exists s, body !! "keyword" = Some (JStr s) /\ trim s <> "")
  /\ optional_int_in_range 1 None (body !! "page")
  /\ optional_int_in_range 1 (Some 100) (body !! "limit").

(** The dataset of the scenario in the specification. *)
Definition scenario : list college :=
  [ {[ "name" := "ABC College (Id:12)"; "state" := "X"; "district" := "D1" ]};
    {[ "name" := "XYZ Inst"; "state" := "X"; "district" := "D2" ]};
    {[ "name" := "ABC Tech"; "state" := "Y"; "district" := "D3" ]} ].

(** A payload that is neither a page nor a listing: nothing of the dataset
    but its size goes into it. *)
Definition plain (p : payload) : Prop :=
  match p with
  | Paged _ | Names _ => False
  | _ => True
  end.

(** The payloads a handler computes (and then caches) from the dataset. *)
Inductive fresh_payload (colleges : list college) : payload -> Prop :=
| fresh_search keyword page limit result :
    search_result colleges keyword = Some result ->
    fresh_payload colleges (Paged (search_response result page limit))
| fresh_filter field value page limit result :
    filter_result field value colleges = Some result ->
    fresh_payload colleges (Paged (filter_response result page limit))
| fresh_names l : fresh_payload colleges (Names l).

(** What a handler does: either it leaves the state alone and sends a plain
    payload or a cache hit, or it computes a payload from the dataset, sends
    it with status 200 and stores it in the cache. *)
Definition served (now : Z) (st : server) (out : reply * server) : Prop :=
  (out.2 = st
   /\ exists status p, out.1 = Reply status p
        /\ (plain p \/ exists key, NodeCache.get now key (cache st) = Some p))
  \/ (exists key p, out.1 = Reply 200 p
        /\ fresh_payload (colleges st) p
        /\ out.2 = with_cache st (NodeCache.set now key p (cache st))).

(** [r] is a stored row with its name normalized and nothing else changed. *)
Definition copy_of_stored (colleges : list college) (r : college) : Prop :=
  exists (c : college) (name : string),
    c ∈ colleges /\ c !! "name" = Some name
    /\ r = <["name" := cleanCollegeName name]> c.

Definition page_of_stored (colleges : list college) (p : payload) : Prop :=
  match p with
  | Paged resp => Forall (copy_of_stored colleges) (data resp)
  | _ => True
  end.

(** Every page held by the cache is made of copies of stored rows. *)
Definition cache_of_stored (st : server) : Prop :=
  forall key v expires,
    cache st !! key = Some (v, expires) -> page_of_stored (colleges st) v.

(** The dataset as it is after the events [evs] have run from start-up. *)
Definition dataset_after (evs : list event) : list college :=
  colleges (run boot evs).1.

(** ** The common shape of the routes *)

(** Every handler of [index.js] has one of two shapes: it answers at once
    (the root, the total, a failed validation), or it looks its key up in the
    cache and, on a miss, computes a payload from [colleges], stores it and
    sends it.  [plan_of] reads that shape off a request; [handle_plan] shows
    that running the plan is running the handler. *)
Inductive plan :=
| Direct (answer : list college -> reply)
| Memo (key : string) (compute : list college -> option payload).

Definition execute (now : Z) (p : plan) (st : server) : reply * server :=
  match p with
  | Direct answer => (answer (colleges st), st)
  | Memo key compute =>
      match NodeCache.get now key (cache st) with
      | Some cachedResult => (Reply 200 cachedResult, st)
      | None =>
          match compute (colleges st) with
          | None => (something_broke, st)
          | Some response =>
              (Reply 200 response,
               with_cache st (NodeCache.set now key response (cache st)))
          end
      end
  end.

Definition search_plan (body0 : gmap string jsval) : plan :=
  let '(kw_errors, trimmed) := Validator.keyword_chain (body0 !! "keyword") in
  let body := <["keyword" := JStr trimmed]> body0 in
  match kw_errors ++ Validator.paging_chains body with
  | (_ :: _) as errors => Direct (fun _ => Reply 400 (Errors errors))
  | [] =>
      let page := default (JNum (Fin 1)) (body !! "page") in
      let limit := default (JNum (Fin 10)) (body !! "limit") in
      Memo (cache_key "search" trimmed page limit)
           (fun cs => (fun result => Paged (search_response result page limit))
                        <$> search_result cs trimmed)
  end.

Definition field_plan (field value : string) (query : gmap string string)
           (body : gmap string jsval) : plan :=
  match Validator.paging_chains body with
  | (_ :: _) as errors => Direct (fun _ => Reply 400 (Errors errors))
  | [] =>
      let page := default (JNum (Fin 1)) (JStr <$> query !! "page") in
      let limit := default (JNum (Fin 10)) (JStr <$> query !! "limit") in
      Memo (cache_key field value page limit)
           (fun cs => (fun result => Paged (filter_response result page limit))
                        <$> filter_result field value cs)
  end.

Definition plan_of (r : request) : plan :=
  match r with
  | GetRoot => Direct (fun _ => Reply 200 (Text "Colleges API : Developed by PrasadBobby"))
  | GetTotal => Direct (fun cs => Reply 200 (TotalCount (length cs)))
  | PostSearch body => search_plan body
  | GetState state query body => field_plan "state" state query body
  | GetDistrict district query body => field_plan "district" district query body
  | GetAllStates => Memo "allstates" (fun cs => Some (Names (all_states cs)))
  | GetDistricts state =>
      Memo ("districts:" +:+ state) (fun cs => Names <$> districts_of state cs)
  end.

(** The path pattern a request is routed by. *)
Definition route_of (r : request) : string :=
  match r with
  | GetRoot => "/"
  | GetTotal => "/colleges/total"
  | PostSearch _ => "/colleges/search"
  | GetState _ _ _ => "/colleges/state/:state"
  | GetDistrict _ _ _ => "/colleges/district/:district"
  | GetAllStates => "/allstates"
  | GetDistricts _ => "/districts/:state"
  end.

(** The entries of a cache that a lookup at time [now] still returns. *)
Definition live (now : Z) (c : gmap string (payload * Z)) (key : string)
           (v : payload) : Prop :=
  exists expires, c !! key = Some (v, expires) /\ now <= expires.

(** How the cache keys of a route begin. *)
Definition key_prefix (r : request) : string :=
  match r with
  | PostSearch _ => "search:"
  | GetState _ _ _ => "state:"
  | GetDistrict _ _ _ => "district:"
  | GetAllStates => "allstates"
  | GetDistricts _ => "districts:"
  | GetRoot | GetTotal => ""
  end.

(** The errors the three chains of [/colleges/search] collect, in the order
    of the chains. *)
Definition search_errors (body : gmap string jsval) : list string :=
  (Validator.keyword_chain (body !! "keyword")).1
  ++ Validator.paging_chains
       (<["keyword" := JStr (Validator.keyword_chain (body !! "keyword")).2]> body).

(** The integers a double holds exactly, from [Number.MIN_SAFE_INTEGER] to
    [Number.MAX_SAFE_INTEGER].  This is the range on which the model of
    numbers is exact: a JSON number is the integer written, [Number] of a
    signed run of digits is the integer denoted, and [String] prints plain
    digits.  Beyond it the code rounds to a double, prints the digits of
    the double (the exponent form from [1e21] on) and overflows to
    [Infinity]; the statements that depend on the value of a number are made
    for safe integers. *)
Definition safe_integer (z : Z) : Prop := - 2 ^ 53 < z < 2 ^ 53.

(** A value of a JSON body that, if it is a number, is one the model is
    exact on. *)
Definition safe_value (v : jsval) : Prop :=
  match v with
  | JNum (Fin z) => safe_integer z
  | _ => True
  end.

Global Instance safe_value_dec (v : jsval) : Decision (safe_value v).
Proof. unfold safe_value, safe_integer. destruct v as [[z| | |]|s]; apply _. Defined.

(** A body whose numbers are safe integers. *)
Definition safe_body (body : gmap string jsval) : Prop :=
  map_Forall (fun _ => safe_value) body.

(** The characters a numeric literal can start with: a digit, a sign, the
    dot of a fraction, the [I] of [Infinity]. *)
Definition starts_number (c : ascii) : bool :=
  match JsNum.digit_val c with
  | Some _ => true
  | None => is_char "+" c || is_char "-" c || is_char "." c || is_char "I" c
  end.

(** A text that [Number] turns into [NaN] whatever its other characters are:
    behind the leading white space it is not empty and starts with a
    character no numeric literal starts with. *)
Definition not_numeric (v : jsval) : bool :=
  match v with
  | JStr s =>
      match chars (trim s) with
      | c :: _ => negb (starts_number c)
      | [] => false
      end
  | JNum _ => false
  end.

(** * Properties *)

(** The name of the specification's scenario. *)
Example clean_scenario : cleanCollegeName "ABC College (Id:12)" = "ABC College".
Proof. reflexivity. Qed.

(** ** Strings as character lists *)

Lemma chars_str (l : list ascii) : chars (str l) = l.
Proof. apply list_ascii_of_string_of_list_ascii. Qed.

Lemma str_chars (s : string) : str (chars s) = s.
Proof. apply string_of_list_ascii_of_string. Qed.

Lemma chars_inj (s t : string) : chars s = chars t -> s = t.
Proof. intros H. rewrite <- (str_chars s), <- (str_chars t). by rewrite H. Qed.

Lemma chars_app (s t : string) : chars (s +:+ t) = chars s ++ chars t.
Proof. induction s as [|c s IH]; simpl; [done|]. unfold chars in *. simpl. by rewrite IH. Qed.

Lemma is_char_true (k c : ascii) : is_char k c = true <-> c = k.
Proof. unfold is_char. rewrite Ascii.eqb_eq. split; congruence. Qed.

Lemma is_char_false (k c : ascii) : is_char k c = false <-> c <> k.
Proof. unfold is_char. rewrite Ascii.eqb_neq. split; congruence. Qed.

(** ** The global replace *)

Section replace_all.
Variable m : list ascii -> option (list ascii).
Hypothesis m_shrinks : forall s r, m s = Some r -> (length r < length s)%nat.

Lemma replace_all_fuel_enough (f1 f2 : nat) (s : list ascii) :
  (length s <= f1)%nat -> (length s <= f2)%nat ->
  replace_all_fuel m f1 s = replace_all_fuel m f2 s.
Proof using m_shrinks.
  revert f2 s. induction f1 as [|f1 IH]; intros f2 s H1 H2.
  - destruct s; [|simpl in H1; lia]. by destruct f2.
  - destruct s as [|c t]; [by destruct f2|].
    destruct f2 as [|f2]; [simpl in H2; lia|]. simpl in *.
    destruct (m (c :: t)) as [r|] eqn:E.
    + apply m_shrinks in E. simpl in E. apply IH; lia.
    + f_equal. apply IH; lia.
Qed.

Lemma replace_all_nil : replace_all m [] = [].
Proof. reflexivity. Qed.

(** The equation of the scan: fuel never runs out. *)
Lemma replace_all_cons (c : ascii) (t : list ascii) :
  replace_all m (c :: t) =
  match m (c :: t) with
  | Some r => replace_all m r
  | None => c :: replace_all m t
  end.
Proof using m_shrinks.
  unfold replace_all. simpl.
  destruct (m (c :: t)) as [r|] eqn:E; [|done].
  apply m_shrinks in E. simpl in E. apply replace_all_fuel_enough; lia.
Qed.

(** A stretch in which the expression matches at no position is kept. *)
Lemma replace_all_keep (pre rest : list ascii) :
  (forall k, (k < length pre)%nat -> m (drop k pre ++ rest) = None) ->
  replace_all m (pre ++ rest) = pre ++ replace_all m rest.
Proof using m_shrinks.
  induction pre as [|c pre IH]; intros H; [done|].
  simpl. rewrite replace_all_cons.
  pose proof (H 0%nat) as H0. simpl in H0. rewrite H0 by lia.
  f_equal. apply IH. intros k Hk. apply (H (S k)). simpl. lia.
Qed.

(** Where the expression matches nowhere, the string is returned as it is. *)
Lemma replace_all_id (l : list ascii) :
  (forall k, m (drop k l) = None) -> replace_all m l = l.
Proof using m_shrinks.
  induction l as [|c t IH]; intros H; [done|].
  rewrite replace_all_cons. pose proof (H 0%nat) as H0. simpl in H0.
  rewrite H0. f_equal. apply IH. intros k. apply (H (S k)).
Qed.
End replace_all.

Lemma star_then_paren_shrinks (s r : list ascii) :
  star_then_paren s = Some r -> (length r < length s)%nat.
Proof.
  revert r. induction s as [|c t IH]; intros r; simpl; [done|].
  destruct (is_char ">" c).
  - destruct (is_char ")" c); [|done]. intros [= <-]; simpl; lia.
  - destruct (star_then_paren t) as [r'|].
    + intros [= <-]. specialize (IH r' eq_refl). simpl; lia.
    + destruct (is_char ")" c); [|done]. intros [= <-]; simpl; lia.
Qed.

Lemma match_annotation_shrinks (s r : list ascii) :
  match_annotation s = Some r -> (length r < length s)%nat.
Proof.
  destruct s as [|c t]; simpl; [done|].
  destruct (is_char ":" c); [|done].
  intros H%star_then_paren_shrinks. simpl; lia.
Qed.

Lemma match_id_marker_shrinks (s r : list ascii) :
  match_id_marker s = Some r -> (length r < length s)%nat.
Proof.
  destruct s as [|p [|i [|d t]]]; simpl; try done.
  destruct (_ && _); [|done]. intros [= <-]; simpl; lia.
Qed.

(** ** The two expressions of the normalizer *)

Lemma star_then_paren_Some (s r : list ascii) :
  star_then_paren s = Some r ->
  exists body, s = body ++ ")"%char :: r /\ ">"%char ∉ body.
Proof.
  revert r. induction s as [|c t IH]; intros r; simpl; [done|].
  destruct (is_char ">" c) eqn:Egt.
  - destruct (is_char ")" c) eqn:Ep; [|done].
    apply is_char_true in Egt, Ep. congruence.
  - apply is_char_false in Egt.
    destruct (star_then_paren t) as [r'|] eqn:Et.
    + intros [= <-]. destruct (IH _ eq_refl) as (body & -> & Hb).
      exists (c :: body). split; [done|].
      intros [?|?]%elem_of_cons; [congruence|done].
    + destruct (is_char ")" c) eqn:Ep; [|done].
      apply is_char_true in Ep as ->. intros [= <-].
      exists []. split; [done|]. apply not_elem_of_nil.
Qed.

Lemma star_then_paren_None (s : list ascii) :
  star_then_paren s = None <-> ~ paren_reachable s.
Proof.
  induction s as [|c t IH]; simpl.
  - split; [|done]. intros _ (body & post & E & _). by destruct body.
  - destruct (is_char ">" c) eqn:Egt.
    + apply is_char_true in Egt as ->.
      assert (is_char ")" ">" = false) as -> by reflexivity.
      split; [|done]. intros _ (body & post & E & Hb).
      destruct body as [|b body]; simplify_eq/=. apply Hb. left.
    + apply is_char_false in Egt.
      destruct (star_then_paren t) as [r|] eqn:Et.
      * split; [done|]. intros Hn. exfalso.
        apply star_then_paren_Some in Et as (body & -> & Hb).
        apply Hn. exists (c :: body), r. split; [done|].
        intros [?|?]%elem_of_cons; [congruence|done].
      * destruct (is_char ")" c) eqn:Ep.
        -- apply is_char_true in Ep as ->. split; [done|]. intros Hn.
           exfalso. apply Hn. exists [], t. split; [done|]. apply not_elem_of_nil.
        -- apply is_char_false in Ep.
           split; [|done]. intros _ (body & post & E & Hb).
           destruct body as [|b body]; simplify_eq/=.
           apply (proj1 IH eq_refl). exists body, post. split; [done|].
           intros ?. apply Hb. by right.
Qed.

(** The star is greedy: the match ends at the last closing parenthesis that
    can be reached. *)
Lemma star_then_paren_last (s r : list ascii) :
  star_then_paren s = Some r -> ~ paren_reachable r.
Proof.
  revert r. induction s as [|c t IH]; intros r; simpl; [done|].
  destruct (is_char ">" c) eqn:Egt.
  - destruct (is_char ")" c) eqn:Ep; [|done].
    apply is_char_true in Egt, Ep. congruence.
  - destruct (star_then_paren t) as [r'|] eqn:Et.
    + intros [= <-]. by apply IH.
    + destruct (is_char ")" c); [|done]. intros [= <-].
      by apply star_then_paren_None.
Qed.

Lemma star_then_paren_greedy (body tail : list ascii) :
  ">"%char ∉ body -> ~ paren_reachable tail ->
  star_then_paren (body ++ ")"%char :: tail) = Some tail.
Proof.
  intros Hb Ht. apply star_then_paren_None in Ht.
  induction body as [|c body IH]; simpl.
  - by rewrite Ht.
  - apply not_elem_of_cons in Hb as [Hc Hb].
    rewrite (proj2 (is_char_false ">" c)) by done.
    by rewrite IH.
Qed.

Lemma match_annotation_head (c : ascii) (t : list ascii) :
  c <> ":"%char -> match_annotation (c :: t) = None.
Proof. intros H. simpl. by rewrite (proj2 (is_char_false ":" c)). Qed.

Lemma match_annotation_has (s r : list ascii) :
  match_annotation s = Some r -> has_annotation s.
Proof.
  destruct s as [|c t]; simpl; [done|].
  destruct (is_char ":" c) eqn:E; [|done]. apply is_char_true in E as ->.
  intros (body & -> & Hb)%star_then_paren_Some. by exists [], body, r.
Qed.

Lemma has_annotation_drop (k : nat) (l : list ascii) :
  has_annotation (drop k l) -> has_annotation l.
Proof.
  intros (pre & body & post & E & Hb).
  exists (take k l ++ pre), body, post. split; [|done].
  rewrite <- (take_drop k l) at 1. rewrite E. by rewrite <- app_assoc.
Qed.

Lemma match_id_marker_has (s r : list ascii) :
  match_id_marker s = Some r -> has_id_marker s.
Proof.
  destruct s as [|p [|i [|d t]]]; simpl; try done.
  destruct (is_char "(" p) eqn:Ep; [|done]. apply is_char_true in Ep as ->.
  destruct (is_char "I" i || is_char "i" i) eqn:Ei; [|done].
  destruct (is_char "D" d || is_char "d" d) eqn:Ed; [|done].
  intros [= <-]. exists [], i, d, t. split; [done|].
  apply orb_true_iff in Ei, Ed. rewrite !is_char_true in Ei, Ed. done.
Qed.

Lemma has_id_marker_drop (k : nat) (l : list ascii) :
  has_id_marker (drop k l) -> has_id_marker l.
Proof.
  intros (pre & i & d & post & E & Hi & Hd).
  exists (take k l ++ pre), i, d, post. split; [|done].
  rewrite <- (take_drop k l) at 1. rewrite E. by rewrite <- app_assoc.
Qed.

Lemma strip_annotations_id (l : list ascii) :
  ~ has_annotation l -> replace_all match_annotation l = l.
Proof.
  intros H. apply replace_all_id; [apply match_annotation_shrinks|].
  intros k. destruct (match_annotation (drop k l)) eqn:E; [|done].
  destruct H. eapply has_annotation_drop, match_annotation_has, E.
Qed.

Lemma strip_id_markers_id (l : list ascii) :
  ~ has_id_marker l -> replace_all match_id_marker l = l.
Proof.
  intros H. apply replace_all_id; [apply match_id_marker_shrinks|].
  intros k. destruct (match_id_marker (drop k l)) eqn:E; [|done].
  destruct H. eapply has_id_marker_drop, match_id_marker_has, E.
Qed.

(** One removal of the first expression: up to the first colon nothing
    matches, and from it the span runs to the last reachable [)]. *)
Lemma strip_annotations_span (pre body tail : list ascii) :
  ":"%char ∉ pre -> ">"%char ∉ body -> ~ paren_reachable tail ->
  replace_all match_annotation (pre ++ ":"%char :: body ++ ")"%char :: tail)
  = pre ++ replace_all match_annotation tail.
Proof.
  intros Hpre Hb Ht.
  rewrite replace_all_keep.
  - f_equal. rewrite replace_all_cons by apply match_annotation_shrinks.
    simpl. by rewrite star_then_paren_greedy.
  - apply match_annotation_shrinks.
  - intros k Hk. destruct (drop k pre) as [|c u] eqn:E.
    + apply (f_equal length) in E. rewrite length_drop in E. simpl in E. lia.
    + apply match_annotation_head. intros ->. apply Hpre.
      apply (subseteq_drop k). rewrite E. left.
Qed.

(** One removal of the second expression. *)
Lemma strip_id_markers_span (pre post : list ascii) (i d : ascii) :
  "("%char ∉ pre -> (i = "I" \/ i = "i")%char -> (d = "D" \/ d = "d")%char ->
  replace_all match_id_marker (pre ++ "("%char :: i :: d :: post)
  = pre ++ replace_all match_id_marker post.
Proof.
  intros Hpre Hi Hd.
  rewrite replace_all_keep.
  - f_equal. rewrite replace_all_cons by apply match_id_marker_shrinks.
    simpl. by destruct Hi as [-> | ->], Hd as [-> | ->].
  - apply match_id_marker_shrinks.
  - intros k Hk. destruct (drop k pre) as [|c u] eqn:E.
    + apply (f_equal length) in E. rewrite length_drop in E. simpl in E. lia.
    + assert (c <> "("%char) as Hc.
      { intros ->. apply Hpre. apply (subseteq_drop k). rewrite E. left. }
      simpl. destruct (u ++ _ :: _) as [|? [|? ?]]; try done.
      by rewrite (proj2 (is_char_false "(" c)).
Qed.

(** ** [trim] *)

Lemma ltrim_decomp (l : list ascii) :
  exists ws, l = ws ++ ltrim l /\ all_white ws.
Proof.
  induction l as [|c t (ws & E & Hws)]; simpl.
  - exists []. split; [done|constructor].
  - destruct (is_white c) eqn:Ec.
    + exists (c :: ws). split; [by rewrite E at 1|by constructor].
    + exists []. split; [done|constructor].
Qed.

Lemma ltrim_head (l : list ascii) (c : ascii) (t : list ascii) :
  ltrim l = c :: t -> is_white c = false.
Proof.
  induction l as [|a l IH]; simpl; [done|].
  destruct (is_white a) eqn:Ea; [done|]. by intros [= <- _].
Qed.

Lemma ltrim_id (l : list ascii) :
  (forall c t, l = c :: t -> is_white c = false) -> ltrim l = l.
Proof. destruct l as [|c t]; [done|]. intros H. simpl. by rewrite (H c t). Qed.

Lemma ltrim_snoc (l : list ascii) (c : ascii) :
  is_white c = false -> exists y, ltrim (l ++ [c]) = y ++ [c].
Proof.
  intros Hc. induction l as [|a l [y IH]]; simpl.
  - rewrite Hc. by exists [].
  - destruct (is_white a); [by exists y|]. by exists (a :: l).
Qed.

Lemma rtrim_decomp (l : list ascii) :
  exists ws, l = rtrim l ++ ws /\ all_white ws.
Proof.
  unfold rtrim. destruct (ltrim_decomp (reverse l)) as (ws & E & Hws).
  exists (reverse ws). split.
  - rewrite <- reverse_app, <- E. by rewrite reverse_involutive.
  - unfold all_white in *. rewrite Forall_forall in *. intros c Hc.
    apply Hws. by apply elem_of_reverse.
Qed.

Lemma rtrim_last (l : list ascii) (c : ascii) (t : list ascii) :
  rtrim l = t ++ [c] -> is_white c = false.
Proof.
  unfold rtrim. intros H. apply (f_equal reverse) in H.
  rewrite reverse_involutive, reverse_snoc in H.
  by apply ltrim_head in H.
Qed.

Lemma rtrim_id (l : list ascii) :
  (forall c t, l = t ++ [c] -> is_white c = false) -> rtrim l = l.
Proof.
  intros H. unfold rtrim. rewrite ltrim_id; [apply reverse_involutive|].
  intros c t E. apply (H c (reverse t)).
  rewrite <- (reverse_involutive l), E. apply reverse_cons.
Qed.

Lemma rtrim_head (c : ascii) (t : list ascii) :
  is_white c = false -> exists t', rtrim (c :: t) = c :: t'.
Proof.
  intros Hc. unfold rtrim. rewrite reverse_cons.
  destruct (ltrim_snoc (reverse t) c Hc) as [y ->].
  exists (reverse y). by rewrite reverse_snoc.
Qed.

Lemma trim_chars_trimmed (l : list ascii) : trimmed (trim_chars l).
Proof.
  unfold trim_chars. split.
  - intros c t E. destruct (ltrim l) as [|a u] eqn:El; [done|].
    pose proof (ltrim_head _ _ _ El) as Ha.
    destruct (rtrim_head a u Ha) as [t' E']. rewrite E' in E. congruence.
  - intros c t E. by apply rtrim_last in E.
Qed.

Lemma trim_chars_decomp (l : list ascii) :
  exists ws1 ws2, l = ws1 ++ trim_chars l ++ ws2 /\ all_white ws1 /\ all_white ws2.
Proof.
  destruct (ltrim_decomp l) as (ws1 & E1 & H1).
  destruct (rtrim_decomp (ltrim l)) as (ws2 & E2 & H2).
  exists ws1, ws2. unfold trim_chars. by rewrite <- E2.
Qed.

Lemma trim_chars_id (l : list ascii) : trimmed l -> trim_chars l = l.
Proof.
  intros [Hh Hl]. unfold trim_chars. rewrite (ltrim_id l Hh). by apply rtrim_id.
Qed.

Lemma trim_idempotent (s : string) : trim (trim s) = trim s.
Proof.
  unfold trim. rewrite chars_str. f_equal. apply trim_chars_id, trim_chars_trimmed.
Qed.

(** ** Removing characters other than [>] cannot create an annotation *)

Lemma thinned_refl (l : list ascii) : thinned l l.
Proof. induction l; by constructor. Qed.

Lemma thinned_app (s1 t1 s2 t2 : list ascii) :
  thinned s1 t1 -> thinned s2 t2 -> thinned (s1 ++ s2) (t1 ++ t2).
Proof.
  induction 1; simpl; intros;
    [done|apply thinned_keep; auto|apply thinned_drop; auto].
Qed.

Lemma thinned_all (l : list ascii) : ">"%char ∉ l -> thinned l [].
Proof.
  induction l as [|c l IH]; [constructor|].
  intros [? ?]%not_elem_of_cons. apply thinned_drop; [congruence|auto].
Qed.

Lemma thinned_trans (a b c : list ascii) : thinned a b -> thinned b c -> thinned a c.
Proof.
  intros H. revert c. induction H; intros c' Hc; [done| |apply thinned_drop; auto].
  inversion Hc; subst; [apply thinned_keep|apply thinned_drop]; auto.
Qed.

Lemma thinned_no_gt (s t : list ascii) :
  thinned s t -> ">"%char ∉ t -> ">"%char ∉ s.
Proof.
  induction 1; intros Ht; [done| |].
  - apply not_elem_of_cons in Ht as [? ?]. apply not_elem_of_cons. auto.
  - apply not_elem_of_cons. split; [congruence|auto].
Qed.

Lemma thinned_cons_inv (s : list ascii) (c : ascii) (t : list ascii) :
  thinned s (c :: t) ->
  exists del s', s = del ++ c :: s' /\ (">"%char ∉ del) /\ thinned s' t.
Proof.
  remember (c :: t) as u eqn:Eu. intros H. revert Eu.
  induction H as [|a s u H IH|a s u Ha H IH]; intros Eu; [done| |].
  - injection Eu as -> ->. exists [], s. split; [done|]. split; [apply not_elem_of_nil|done].
  - destruct (IH Eu) as (del & s' & -> & Hd & Hs).
    exists (a :: del), s'. split; [done|]. split; [|done].
    apply not_elem_of_cons. split; [congruence|done].
Qed.

Lemma thinned_app_inv (s a b : list ascii) :
  thinned s (a ++ b) -> exists s1 s2, s = s1 ++ s2 /\ thinned s1 a /\ thinned s2 b.
Proof.
  revert s. induction a as [|c a IH]; intros s H; simpl in H.
  - exists [], s. split; [done|]. split; [constructor|done].
  - apply thinned_cons_inv in H as (del & s' & -> & Hd & Hs).
    destruct (IH _ Hs) as (s1 & s2 & -> & H1 & H2).
    exists (del ++ c :: s1), s2. split; [by rewrite <- app_assoc|]. split; [|done].
    replace (c :: a) with ([] ++ c :: a) by done.
    apply thinned_app; [by apply thinned_all|by constructor].
Qed.

Lemma thinned_has_annotation (s t : list ascii) :
  thinned s t -> has_annotation t -> has_annotation s.
Proof.
  intros H (pre & body & post & -> & Hb).
  apply thinned_app_inv in H as (s1 & s2 & -> & _ & H).
  apply thinned_cons_inv in H as (del & s3 & -> & _ & H).
  apply thinned_app_inv in H as (s4 & s5 & -> & H4 & H).
  apply thinned_cons_inv in H as (del2 & s6 & -> & Hd2 & _).
  exists (s1 ++ del), (s4 ++ del2), s6. split.
  - by rewrite <- !app_assoc.
  - apply not_elem_of_app. split; [by eapply thinned_no_gt|done].
Qed.

Lemma replace_all_thinned (m : list ascii -> option (list ascii)) :
  (forall s r, m s = Some r -> exists del, s = del ++ r /\ del <> [] /\ ">"%char ∉ del) ->
  forall l, thinned l (replace_all m l).
Proof.
  intros Hm.
  assert (forall s r, m s = Some r -> (length r < length s)%nat) as Hsh.
  { intros s r (del & -> & Hne & _)%Hm. rewrite length_app.
    destruct del; [done|simpl; lia]. }
  intros l. remember (length l) as n eqn:En. revert l En.
  induction n as [n IH] using lt_wf_ind. intros [|c t] En; [constructor|].
  rewrite replace_all_cons by done.
  destruct (m (c :: t)) as [r|] eqn:E.
  - pose proof (Hsh _ _ E) as Hlt.
    apply Hm in E as (del & E & _ & Hd). rewrite E.
    replace (replace_all m r) with ([] ++ replace_all m r) by done.
    apply thinned_app; [by apply thinned_all|].
    apply (IH (length r)); [lia|done].
  - constructor. apply (IH (length t)); [simpl in En; lia|done].
Qed.

Lemma strip_id_markers_thinned (l : list ascii) :
  thinned l (replace_all match_id_marker l).
Proof.
  apply replace_all_thinned. intros s r H.
  destruct s as [|p [|i [|d t]]]; simpl in H; try done.
  destruct (is_char "(" p) eqn:Ep; [|done]. apply is_char_true in Ep as ->.
  destruct (is_char "I" i || is_char "i" i) eqn:Ei; [|done].
  destruct (is_char "D" d || is_char "d" d) eqn:Ed; [|done].
  injection H as <-. exists ["("%char; i; d]. split; [done|]. split; [done|].
  apply orb_true_iff in Ei, Ed. rewrite !is_char_true in Ei, Ed.
  rewrite !not_elem_of_cons. destruct Ei as [-> | ->], Ed as [-> | ->];
    (repeat split; [done..|apply not_elem_of_nil]).
Qed.

Lemma all_white_no_gt (ws : list ascii) : all_white ws -> ">"%char ∉ ws.
Proof.
  intros H Hin. unfold all_white in H. rewrite Forall_forall in H.
  by specialize (H _ Hin).
Qed.

Lemma trim_chars_thinned (l : list ascii) : thinned l (trim_chars l).
Proof.
  destruct (trim_chars_decomp l) as (ws1 & ws2 & E & H1 & H2).
  rewrite E at 1.
  replace (trim_chars l) with ([] ++ trim_chars l ++ []) at 2 by by rewrite app_nil_r.
  apply thinned_app; [by apply thinned_all, all_white_no_gt|].
  apply thinned_app; [apply thinned_refl|by apply thinned_all, all_white_no_gt].
Qed.

(** The first replacement leaves nothing for itself to match. *)
Lemma paren_reachable_strip (t : list ascii) :
  paren_reachable (replace_all match_annotation t) -> paren_reachable t.
Proof.
  induction t as [|c t IH]; [done|].
  rewrite replace_all_cons by apply match_annotation_shrinks.
  destruct (match_annotation (c :: t)) as [r|] eqn:E.
  - intros _. simpl in E. destruct (is_char ":" c) eqn:Ec; [|done].
    apply is_char_true in Ec as ->.
    apply star_then_paren_Some in E as (body & -> & Hb).
    exists (":"%char :: body), r. split; [done|].
    apply not_elem_of_cons. split; [done|done].
  - intros (body & post & Eq & Hb). destruct body as [|b body]; simplify_eq/=.
    + by exists [], t.
    + apply not_elem_of_cons in Hb as [Hb1 Hb2].
      destruct IH as (body' & post' & -> & Hb'); [by exists body, post|].
      exists (b :: body'), post'. split; [done|]. apply not_elem_of_cons. auto.
Qed.

Lemma strip_annotations_clean (t : list ascii) :
  ~ has_annotation (replace_all match_annotation t).
Proof.
  remember (length t) as n eqn:En. revert t En.
  induction n as [n IH] using lt_wf_ind. intros [|c t] En.
  - intros (pre & body & post & E & _). by destruct pre.
  - rewrite replace_all_cons by apply match_annotation_shrinks.
    destruct (match_annotation (c :: t)) as [r|] eqn:E.
    + apply match_annotation_shrinks in E. apply (IH (length r)); [lia|done].
    + intros (pre & body & post & Eq & Hb). destruct pre as [|p pre].
      * injection Eq as -> Eq. change (star_then_paren t = None) in E.
        apply star_then_paren_None in E. apply E, paren_reachable_strip.
        rewrite Eq. by exists body, post.
      * injection Eq as -> Eq.
        apply (IH (length t) ltac:(simpl in En; lia) t eq_refl).
        rewrite Eq. by exists pre, body, post.
Qed.

(** ** Deciding whether a pattern is present *)

Lemma any_suffix_true (p : list ascii -> bool) (l : list ascii) :
  any_suffix p l = true <-> exists pre s, l = pre ++ s /\ p s = true.
Proof.
  induction l as [|c t IH]; simpl.
  - rewrite orb_false_r. split.
    + intros H. by exists [], [].
    + intros (pre & s & E & H). by destruct pre, s.
  - rewrite orb_true_iff, IH. split.
    + intros [H|(pre & s & -> & H)]; [by exists [], (c :: t)|by exists (c :: pre), s].
    + intros (pre & s & E & H). destruct pre as [|a pre]; simpl in E.
      * left. by rewrite E.
      * right. injection E as -> ->. by exists pre, s.
Qed.

Lemma has_annotation_b_spec (l : list ascii) :
  has_annotation_b l = true <-> has_annotation l.
Proof.
  unfold has_annotation_b. rewrite any_suffix_true. split.
  - intros (pre & s & -> & [r Hr]%bool_decide_eq_true).
    apply match_annotation_has in Hr as (pre' & body & post & -> & Hb).
    exists (pre ++ pre'), body, post. by rewrite <- app_assoc.
  - intros (pre & body & post & -> & Hb).
    exists pre, (":"%char :: body ++ ")"%char :: post). split; [done|].
    apply bool_decide_eq_true. change (is_Some (star_then_paren (body ++ ")"%char :: post))).
    destruct (star_then_paren _) eqn:E; [done|].
    apply star_then_paren_None in E. destruct E. by exists body, post.
Qed.

Lemma has_id_marker_b_spec (l : list ascii) :
  has_id_marker_b l = true <-> has_id_marker l.
Proof.
  unfold has_id_marker_b. rewrite any_suffix_true. split.
  - intros (pre & s & -> & [r Hr]%bool_decide_eq_true).
    apply match_id_marker_has in Hr as (pre' & i & d & post & -> & Hi & Hd).
    exists (pre ++ pre'), i, d, post. by rewrite <- app_assoc.
  - intros (pre & i & d & post & -> & Hi & Hd).
    exists pre, ("("%char :: i :: d :: post). split; [done|].
    apply bool_decide_eq_true. simpl.
    by destruct Hi as [-> | ->], Hd as [-> | ->].
Qed.

Global Instance has_annotation_dec (l : list ascii) : Decision (has_annotation l).
Proof.
  destruct (has_annotation_b l) eqn:E.
  - left. by apply has_annotation_b_spec.
  - right. intros H%has_annotation_b_spec. congruence.
Defined.

Global Instance has_id_marker_dec (l : list ascii) : Decision (has_id_marker l).
Proof.
  destruct (has_id_marker_b l) eqn:E.
  - left. by apply has_id_marker_b_spec.
  - right. intros H%has_id_marker_b_spec. congruence.
Defined.

Lemma match_id_marker_None (s : list ascii) :
  ~ id_marker_at s -> match_id_marker s = None.
Proof.
  intros H. destruct (match_id_marker s) as [r|] eqn:E; [|done].
  destruct H. destruct s as [|p [|i [|d t]]]; simpl in E; try done.
  destruct (is_char "(" p) eqn:Ep; [|done]. apply is_char_true in Ep as ->.
  destruct (is_char "I" i || is_char "i" i) eqn:Ei; [|done].
  destruct (is_char "D" d || is_char "d" d) eqn:Ed; [|done].
  apply orb_true_iff in Ei, Ed. rewrite !is_char_true in Ei, Ed.
  by exists i, d, t.
Qed.

(** ** C5 and C8: the name normalizer *)

(** C5, as the specification words it, fails on the code: the span removed
    from a colon does not end at the next closing parenthesis.  On [a:b)c)]
    the program removes [:b)c)], up to the last parenthesis, where the
    wording removes [:b)] only.  Nor is the span confined to the end of the
    name: [a:b)c] has no trailing annotation and no [(Id], and is not
    returned as it is.  And a [>] between the colon and the parenthesis
    keeps the trailing annotation of [a:>)] in place. *)
Lemma C5_counterexample_next_paren :
  cleanCollegeName "a:b)c)" = "a"
  /\ spec_cleanName "a:b)c)" = "ac)"
  /\ ~ (forall name, cleanCollegeName name = spec_cleanName name)
  /\ cleanCollegeName "a:b)c" = "ac"
  /\ trim "a:b)c" = "a:b)c"
  /\ cleanCollegeName "a:>)" = "a:>)"
  /\ spec_cleanName "a:>)" = "a".
Proof.
  split; [reflexivity|]. split; [reflexivity|]. split; [|by vm_compute].
  intros H. specialize (H "a:b)c)"). vm_compute in H. discriminate.
Qed.

(** C5, amended.  [cleanCollegeName] is a total function made of three
    passes.  The first scans left to right and, at a colon from which a
    closing parenthesis can be reached without crossing [>], removes the
    colon and everything up to the LAST such parenthesis (wherever the span
    stands, not only at the end of the name); every other character is kept.
    The second removes each [(Id], in any letter case, met by one scan of the
    result.  The third removes the white space at both ends.  When the name
    contains neither pattern the result is the trimmed name. *)
Theorem C5_cleanCollegeName_passes :
  (forall name,
      cleanCollegeName name
      = str (trim_chars (strip_id_markers (strip_annotations (chars name)))))
  /\ (strip_annotations [] = []
      /\ (forall c t, c <> ":"%char ->
                      strip_annotations (c :: t) = c :: strip_annotations t)
      /\ (forall t, ~ paren_reachable t ->
                    strip_annotations (":"%char :: t) = ":"%char :: strip_annotations t)
      /\ (forall body tail, ">"%char ∉ body -> ~ paren_reachable tail ->
                            strip_annotations (":"%char :: body ++ ")"%char :: tail)
                            = strip_annotations tail))
  /\ (strip_id_markers [] = []
      /\ (forall c t, ~ id_marker_at (c :: t) ->
                      strip_id_markers (c :: t) = c :: strip_id_markers t)
      /\ (forall i d t, (i = "I" \/ i = "i")%char -> (d = "D" \/ d = "d")%char ->
                        strip_id_markers ("("%char :: i :: d :: t) = strip_id_markers t))
  /\ (forall l, trimmed (trim_chars l)
                /\ exists ws1 ws2, l = ws1 ++ trim_chars l ++ ws2
                                   /\ all_white ws1 /\ all_white ws2)
  /\ (forall name, ~ has_annotation (chars name) -> ~ has_id_marker (chars name) ->
                   cleanCollegeName name = trim name).
Proof.
  split; [done|]. split; [|split; [|split]].
  - split; [done|]. split; [|split].
    + intros c t Hc. rewrite replace_all_cons by apply match_annotation_shrinks.
      by rewrite match_annotation_head.
    + intros t Ht. rewrite replace_all_cons by apply match_annotation_shrinks.
      apply star_then_paren_None in Ht. simpl. by rewrite Ht.
    + intros body tail Hb Ht.
      by apply (strip_annotations_span []); [apply not_elem_of_nil|..].
  - split; [done|]. split.
    + intros c t Hm. rewrite replace_all_cons by apply match_id_marker_shrinks.
      by rewrite match_id_marker_None.
    + intros i d t Hi Hd. by apply (strip_id_markers_span []); [apply not_elem_of_nil|..].
  - intros l. split; [apply trim_chars_trimmed|apply trim_chars_decomp].
  - intros name Ha Hm. unfold cleanCollegeName, clean_chars, trim.
    rewrite strip_annotations_id by done. by rewrite strip_id_markers_id.
Qed.

Lemma C5_cleanCollegeName_passes_witness :
  ~ has_annotation (chars "St. Xavier College ")
  /\ ~ has_id_marker (chars "St. Xavier College ")
  /\ cleanCollegeName "St. Xavier College " = "St. Xavier College".
Proof.
  assert (~ has_annotation (chars "St. Xavier College ")) as Ha
      by (apply (bool_decide_unpack _); vm_compute; exact I).
  assert (~ has_id_marker (chars "St. Xavier College ")) as Hm
      by (apply (bool_decide_unpack _); vm_compute; exact I).
  split; [exact Ha|]. split; [exact Hm|].
  exact (proj2 (proj2 (proj2 (proj2 C5_cleanCollegeName_passes))) _ Ha Hm).
Defined.

(** C8, as stated, fails on the code: removing one [(Id] can bring the
    pieces of another one together, and the single scan does not go back.
    [(I(Idd] is normalized to [(Id], which is normalized to the empty
    string. *)
Lemma C8_counterexample_not_idempotent :
  cleanCollegeName "(I(Idd" = "(Id"
  /\ cleanCollegeName (cleanCollegeName "(I(Idd") = ""
  /\ cleanCollegeName (cleanCollegeName "(I(Idd") <> cleanCollegeName "(I(Idd".
Proof. split; [reflexivity|]. split; [reflexivity|]. by vm_compute. Qed.

(** C8, amended.  The normalizer is idempotent on every name whose
    normalized form contains no [(Id] (in any letter case): applying it to
    such a result changes nothing. *)
Theorem C8_cleanCollegeName_idempotent (name : string) :
  ~ has_id_marker (chars (cleanCollegeName name)) ->
  cleanCollegeName (cleanCollegeName name) = cleanCollegeName name.
Proof.
  intros Hm. unfold cleanCollegeName in *. rewrite chars_str in *. f_equal.
  set (y := clean_chars (chars name)) in *.
  assert (~ has_annotation y) as Ha.
  { intros H. apply (strip_annotations_clean (chars name)).
    eapply thinned_has_annotation; [|exact H].
    eapply thinned_trans; [apply strip_id_markers_thinned|apply trim_chars_thinned]. }
  unfold clean_chars at 1.
  rewrite strip_annotations_id, strip_id_markers_id by done.
  apply trim_chars_id, trim_chars_trimmed.
Qed.

Lemma C8_cleanCollegeName_idempotent_witness :
  cleanCollegeName (cleanCollegeName "ABC College (Id:12)")
  = cleanCollegeName "ABC College (Id:12)".
Proof.
  apply (C8_cleanCollegeName_idempotent "ABC College (Id:12)").
  apply (bool_decide_unpack _). vm_compute. exact I.
Defined.

(** ** C1 and C7: pagination *)

Lemma take_min_length {A} (l : list A) (n : nat) :
  take n l = take (n `min` length l) l.
Proof.
  destruct (decide (n <= length l)%nat).
  - by rewrite Nat.min_l.
  - rewrite Nat.min_r by lia. by rewrite !take_ge by lia.
Qed.

(** [slice] between two non-negative integer bounds. *)
Lemma slice_nonneg {A} (l : list A) (a b : Z) :
  0 <= a -> 0 <= b ->
  slice l (Fin a) (Fin b) = take (Z.to_nat (b - a)) (drop (Z.to_nat a) l).
Proof.
  intros Ha Hb. unfold slice, rel_index.
  rewrite (proj2 (Z.ltb_ge a 0)), (proj2 (Z.ltb_ge b 0)) by done.
  destruct (decide (Z.of_nat (length l) <= a)).
  - rewrite (Z.min_r a) by done.
    rewrite !drop_ge by lia. by rewrite !take_nil.
  - rewrite (Z.min_l a) by lia.
    rewrite (take_min_length _ (Z.to_nat (b - a))). f_equal.
    rewrite length_drop. lia.
Qed.

Lemma paginate_valid {A} (result : list A) (page limit : jsval) (p l : Z) :
  ToNumber page = Fin p -> ToNumber limit = Fin l -> 1 <= p -> 1 <= l ->
  paginate result page limit
  = take (Z.to_nat l) (drop (Z.to_nat ((p - 1) * l)) result).
Proof.
  intros Hp Hl ? ?. unfold paginate. rewrite Hp, Hl. simpl.
  rewrite slice_nonneg by nia. do 2 f_equal. lia.
Qed.

Lemma ceil_div_pos (n l : Z) :
  1 <= l ->
  exists k, JsNum.ceil_div n (Fin l) = Fin k /\ l * (k - 1) < n <= l * k.
Proof.
  intros Hl. exists (- (- n / l)). split.
  - unfold JsNum.ceil_div. destruct l; [lia|done|lia].
  - pose proof (Z.div_mod (- n) l ltac:(lia)).
    pose proof (Z.mod_pos_bound (- n) l ltac:(lia)). nia.
Qed.

Lemma concat_chunks {A} (result : list A) (l k : nat) :
  concat (map (fun i => take l (drop (i * l) result)) (seq 0 k)) = take (k * l) result.
Proof.
  induction k as [|k IH]; [done|].
  rewrite seq_S, map_app, concat_app, IH. simpl. rewrite app_nil_r.
  rewrite take_take_drop. f_equal. lia.
Qed.

(** The pages of a list, for any type of element. *)
Lemma paginate_pages {A} (result : list A) (page limit : jsval) (p l : Z) :
  ToNumber page = Fin p -> ToNumber limit = Fin l ->
  1 <= p -> 1 <= l ->
  paginate result page limit
    = take (Z.to_nat l) (drop (Z.to_nat ((p - 1) * l)) result)
  /\ exists k, total_pages result limit = Fin k
               /\ 0 <= k
               /\ concat (map (fun i => paginate result (JNum (Fin (Z.of_nat i))) limit)
                              (seq 1 (Z.to_nat k)))
                  = result.
Proof.
  intros Hp Hl Hp1 Hl1.
  split; [by apply paginate_valid|].
  unfold total_pages. rewrite Hl.
  destruct (ceil_div_pos (Z.of_nat (length result)) l Hl1) as (k & -> & Hk1 & Hk2).
  exists k. split; [done|]. assert (0 <= k) as Hk0 by nia. split; [done|].
  trans (take (Z.to_nat k * Z.to_nat l) result); [|apply take_ge; nia].
  rewrite <- concat_chunks. f_equal.
  rewrite <- (fmap_S_seq 0). rewrite <- list_fmap_compose.
  apply list_fmap_ext. intros _ i _. simpl.
  rewrite (paginate_valid result _ limit (Z.of_nat (S i)) l) by (done || lia).
  do 2 f_equal. lia.
Qed.

(** C1.  For a valid page (an integer, at least 1) and a valid limit (an
    integer from 1 to 100), given as numbers or as numeric strings, the
    [data] of the envelope, the same on the search route and on the state
    and district routes, is the stretch of the filtered result that starts at
    offset [(page - 1) * limit] and has at most [limit] records; it is
    empty, not an error, once the offset reaches the number of results; and
    the pages 1 to [totalPages], one after the other, are the filtered
    result, each record once and in order. *)
Theorem C1_pagination (result : list college) (page limit : jsval) (p l : Z) :
  ToNumber page = Fin p -> ToNumber limit = Fin l ->
  1 <= p -> 1 <= l <= 100 ->
  let resp := search_response result page limit in
  data (filter_response result page limit) = data resp
  /\ data resp = take (Z.to_nat l) (drop (Z.to_nat ((p - 1) * l)) result)
  /\ Z.of_nat (length (data resp)) <= l
  /\ (Z.of_nat (length result) <= (p - 1) * l -> data resp = [])
  /\ exists k, totalPages resp = Fin k
               /\ 0 <= k
               /\ concat (map (fun i => data (search_response result
                                               (JNum (Fin (Z.of_nat i))) limit))
                              (seq 1 (Z.to_nat k)))
                  = result.
Proof.
  intros Hp Hl Hp1 [Hl1 Hl100]. cbn [data search_response filter_response totalPages].
  destruct (paginate_pages result page limit p l Hp Hl Hp1 Hl1) as [-> Hk].
  split; [done|]. split; [done|]. split; [rewrite length_take; lia|]. split; [|done].
  intros Hoff. rewrite drop_ge by lia. apply take_nil.
Qed.

Lemma C1_pagination_witness :
  data (search_response scenario (JStr "2") (JNum (Fin 2))) = drop 2 scenario
  /\ data (search_response scenario (JStr "3") (JNum (Fin 2))) = []
  /\ totalPages (search_response scenario (JStr "2") (JNum (Fin 2))) = Fin 2.
Proof.
  pose proof (C1_pagination scenario (JStr "2") (JNum (Fin 2)) 2 2
                eq_refl eq_refl ltac:(lia) ltac:(lia)) as (_ & E & _).
  pose proof (C1_pagination scenario (JStr "3") (JNum (Fin 2)) 3 2
                eq_refl eq_refl ltac:(lia) ltac:(lia)) as (_ & _ & _ & E3 & _).
  split; [exact E|]. split; [apply E3; simpl; lia|reflexivity].
Defined.



(** ** C6: keyword search *)

Lemma starts_with_true (p s : list ascii) :
  starts_with p s = true <-> exists post, s = p ++ post.
Proof.
  revert s. induction p as [|a p IH]; intros s; simpl.
  - split; [by exists s|done].
  - destruct s as [|b s].
    + split; [done|]. by intros [post ?].
    + rewrite andb_true_iff, Ascii.eqb_eq, IH. split.
      * intros [-> [post ->]]. by exists post.
      * intros [post [= -> ->]]. split; [done|]. by exists post.
Qed.

Lemma includes_chars_true (s p : list ascii) :
  includes_chars s p = true <-> exists pre post, s = pre ++ p ++ post.
Proof.
  induction s as [|c s IH]; simpl.
  - rewrite orb_false_r, starts_with_true. split.
    + intros [post ->]. by exists [], post.
    + intros (pre & post & E). destruct pre; [by exists post|done].
  - rewrite orb_true_iff, starts_with_true, IH. split.
    + intros [[post ->]|(pre & post & ->)]; [by exists [], post|by exists (c :: pre), post].
    + intros (pre & post & E). destruct pre as [|a pre]; simpl in E.
      * left. by exists post.
      * right. injection E as -> ->. by exists pre, post.
Qed.

Lemma chars_toLowerCase (s : string) : chars (toLowerCase s) = map lower_char (chars s).
Proof. unfold toLowerCase. apply chars_str. Qed.

Lemma includes_lower_contains_ci (name keyword : string) :
  includes (toLowerCase name) (toLowerCase keyword) = true <-> contains_ci name keyword.
Proof.
  unfold includes. rewrite !chars_toLowerCase, includes_chars_true. split.
  - intros (pre & post & E).
    apply fmap_app_inv in E as (pre' & rest & _ & E & En). symmetry in E.
    apply fmap_app_inv in E as (mid & post' & E & _ & ->).
    by exists pre', mid, post'.
  - intros (pre & mid & post & -> & E).
    exists (map lower_char pre), (map lower_char post).
    by rewrite !map_app, E.
Qed.

Global Instance contains_ci_dec (name keyword : string) :
  Decision (contains_ci name keyword).
Proof.
  destruct (includes (toLowerCase name) (toLowerCase keyword)) eqn:E.
  - left. by apply includes_lower_contains_ci.
  - right. intros H%includes_lower_contains_ci. congruence.
Defined.

(** Unfolding the exception-passing array callbacks without touching the
    column lookups. *)
Ltac ex_step := cbn [filter_ex map_ex mbind option_bind].

Lemma name_includes_Some (keyword : string) (c : college) (name : string) :
  c !! "name" = Some name ->
  name_includes keyword c = Some (includes (toLowerCase name) (toLowerCase keyword)).
Proof. intros H. unfold name_includes. by rewrite H. Qed.

Lemma with_clean_name_Some (c : college) (name : string) :
  c !! "name" = Some name -> with_clean_name c = Some (normalized c).
Proof. intros H. unfold with_clean_name, normalized, name_of. by rewrite H. Qed.

Lemma map_ex_with_clean_name (l : list college) :
  Forall (fun c : college => is_Some (c !! "name")) l ->
  map_ex with_clean_name l = Some (map normalized l).
Proof.
  induction 1 as [|c l [name Hn] _ IH]; [done|].
  ex_step. rewrite (with_clean_name_Some c name Hn), IH. done.
Qed.

Lemma search_result_total (colleges : list college) (keyword : string) :
  Forall (fun c : college => is_Some (c !! "name")) colleges ->
  search_result colleges keyword
  = Some (map normalized
              (filter (fun c => contains_ci (name_of c) keyword) colleges)).
Proof.
  intros Hall. unfold search_result.
  assert (filter_ex (name_includes keyword) colleges
          = Some (filter (fun c => contains_ci (name_of c) keyword) colleges)) as ->.
  { induction Hall as [|c l [name Hn] _ IH]; [done|].
    ex_step. rewrite (name_includes_Some keyword c name Hn), IH. ex_step.
    rewrite filter_cons.
    assert (name_of c = name) as Hname by (unfold name_of; by rewrite Hn).
    destruct (includes _ _) eqn:E.
    - rewrite decide_True; [done|]. rewrite Hname.
      by apply includes_lower_contains_ci.
    - rewrite decide_False; [done|]. rewrite Hname.
      intros H%includes_lower_contains_ci. congruence. }
  ex_step. apply map_ex_with_clean_name.
  rewrite Forall_forall in *. intros c [_ Hc]%list_elem_of_filter. auto.
Qed.

Lemma filter_ex_ext {A} (p q : A -> option bool) (l : list A) :
  (forall x, p x = q x) -> filter_ex p l = filter_ex q l.
Proof. intros H. induction l as [|x l IH]; simpl; [done|]. by rewrite H, IH. Qed.

(** C6.  When every row has a name, the search returns exactly the rows whose
    name contains the keyword case-insensitively, in dataset order, each with
    its name normalized.  Two keywords that differ only in the case of their
    letters, ["abc"] and ["ABC"] for one, give the same result on every
    dataset. *)
Theorem C6_search_by_keyword :
  (forall (colleges : list college) (keyword : string),
      Forall (fun c : college => is_Some (c !! "name")) colleges ->
      search_result colleges keyword
      = Some (map normalized
                  (filter (fun c => contains_ci (name_of c) keyword) colleges)))
  /\ (forall (colleges : list college) (k1 k2 : string),
         toLowerCase k1 = toLowerCase k2 ->
         search_result colleges k1 = search_result colleges k2)
  /\ (forall colleges : list college,
         search_result colleges "abc" = search_result colleges "ABC").
Proof.
  split; [apply search_result_total|].
  assert (forall (colleges : list college) (k1 k2 : string),
             toLowerCase k1 = toLowerCase k2 ->
             search_result colleges k1 = search_result colleges k2) as Hci.
  { intros colleges k1 k2 E. unfold search_result.
    rewrite (filter_ex_ext (name_includes k1) (name_includes k2)); [done|].
    intros c. unfold name_includes. by rewrite E. }
  split; [exact Hci|]. intros colleges. by apply Hci.
Qed.

Lemma C6_search_by_keyword_witness :
  Forall (fun c : college => is_Some (c !! "name")) scenario
  /\ map name_of <$> search_result scenario "abc" = Some ["ABC College"; "ABC Tech"].
Proof.
  assert (Forall (fun c : college => is_Some (c !! "name")) scenario) as H
      by (apply (bool_decide_unpack _); vm_compute; exact I).
  split; [exact H|].
  rewrite (proj1 C6_search_by_keyword scenario "abc" H). vm_compute. reflexivity.
Defined.

(** ** C9: distinct-value listings *)

Global Instance sort_le_total : Total sort_le.
Proof.
  intros [x|] [y|]; simpl; auto. apply String.le_total.
Qed.

Global Instance sort_le_trans : Transitive sort_le.
Proof.
  intros [x|] [y|] [z|]; simpl; try done. apply (transitivity (R := String.le)).
Qed.

Global Instance sort_le_antisym : AntiSymm (=) sort_le.
Proof.
  intros [x|] [y|]; simpl; try done.
  intros H1 H2. f_equal. by apply (anti_symm String.le).
Qed.

Section new_Set.
Context {A : Type} `{EqDecision A}.

Lemma Set_add_fold (l acc : list A) :
  NoDup acc ->
  NoDup (fold_left Set_add l acc)
  /\ forall x, x ∈ fold_left Set_add l acc <-> x ∈ acc \/ x ∈ l.
Proof.
  revert acc. induction l as [|a l IH]; intros acc Hacc; simpl.
  - split; [done|]. intros x. rewrite elem_of_nil. tauto.
  - assert (NoDup (Set_add acc a)) as Hnd.
    { unfold Set_add. case_decide; [done|].
      apply NoDup_app. split; [done|]. split; [|apply NoDup_singleton].
      intros x Hx ->%list_elem_of_singleton. done. }
    destruct (IH _ Hnd) as [H1 H2]. split; [done|].
    intros x. rewrite H2, elem_of_cons. unfold Set_add. case_decide.
    + split; [tauto|]. intros [?|[->|?]]; auto.
    + rewrite elem_of_app, list_elem_of_singleton. tauto.
Qed.

Lemma NoDup_new_Set (l : list A) : NoDup (new_Set l).
Proof. apply Set_add_fold, NoDup_nil_2. Qed.

Lemma elem_of_new_Set (l : list A) (x : A) : x ∈ new_Set l <-> x ∈ l.
Proof.
  unfold new_Set. rewrite (proj2 (Set_add_fold l [] (NoDup_nil_2))).
  rewrite elem_of_nil. tauto.
Qed.
End new_Set.

Lemma sort_spec (l : list (option string)) :
  NoDup l ->
  NoDup (sort l) /\ StronglySorted sort_le (sort l) /\ forall x, x ∈ sort l <-> x ∈ l.
Proof.
  intros Hnd. unfold sort.
  pose proof (merge_sort_Permutation sort_le l) as Hp.
  split; [by rewrite Hp|]. split; [apply StronglySorted_merge_sort; apply _|].
  intros x. by rewrite Hp.
Qed.

(** Whatever algorithm sorts an array without repetitions, the outcome is
    the same: an ascending arrangement of given elements is unique. *)
Lemma sorted_unique_arrangement (l l' : list (option string)) :
  StronglySorted sort_le l' -> l' ≡ₚ l -> l' = sort l.
Proof.
  intros Hs Hp. apply (StronglySorted_unique sort_le); [done| |].
  - apply StronglySorted_merge_sort; apply _.
  - unfold sort. by rewrite merge_sort_Permutation.
Qed.

Lemma filter_ex_field_matches (field value : string) (colleges : list college) :
  Forall (fun c : college => is_Some (c !! field)) colleges ->
  filter_ex (field_matches field value) colleges
  = Some (filter (field_is field value) colleges).
Proof.
  induction 1 as [|c l [v Hv] _ IH]; [done|].
  assert (field_matches field value c
          = Some (bool_decide (toLowerCase v = toLowerCase value))) as Hc
      by (unfold field_matches; by rewrite Hv).
  ex_step. rewrite Hc, IH. ex_step.
  rewrite filter_cons. case_bool_decide as Hb.
  - rewrite decide_True; [done|]. by exists v.
  - rewrite decide_False; [done|]. intros (v' & Hv' & E). congruence.
Qed.

(** C9.  [/allstates] lists the distinct values of the [state] column, as
    stored (two values that differ in case are two values), without
    repetition and in ascending lexicographic order.  When every row has a
    state, [/districts/:state] lists in the same way the values of the
    [district] column of the rows whose state is the argument up to case. *)
Theorem C9_distinct_listings (colleges : list college) :
  (NoDup (all_states colleges)
   /\ StronglySorted sort_le (all_states colleges)
   /\ forall v, v ∈ all_states colleges
                <-> exists c : college, c ∈ colleges /\ c !! "state" = v)
  /\ forall state : string,
      Forall (fun c : college => is_Some (c !! "state")) colleges ->
      exists l, districts_of state colleges = Some l
                /\ NoDup l
                /\ StronglySorted sort_le l
                /\ forall v, v ∈ l
                             <-> exists (c : college) (s : string),
                                   c ∈ colleges
                                   /\ c !! "state" = Some s
                                   /\ toLowerCase s = toLowerCase state
                                   /\ c !! "district" = v.
Proof.
  split.
  - unfold all_states.
    destruct (sort_spec (new_Set (map (fun c : college => c !! "state") colleges)))
      as (H1 & H2 & H3); [apply NoDup_new_Set|].
    split; [done|]. split; [done|]. intros v.
    rewrite H3, elem_of_new_Set, list_elem_of_fmap.
    split; [intros (c & -> & Hc)|intros (c & Hc & <-)]; by exists c.
  - intros state Hall. unfold districts_of.
    rewrite (filter_ex_field_matches "state" state colleges Hall). ex_step.
    eexists. split; [done|].
    match goal with |- NoDup (sort ?x) /\ _ =>
      destruct (sort_spec x) as (H1 & H2 & H3) end; [apply NoDup_new_Set|].
    split; [done|]. split; [done|]. intros v.
    rewrite H3, elem_of_new_Set, list_elem_of_fmap.
    setoid_rewrite list_elem_of_filter. unfold field_is. split.
    + intros (c & -> & (s & Hs & Hl) & Hc). by exists c, s.
    + intros (c & s & Hc & Hs & Hl & <-). exists c.
      split; [done|]. split; [by exists s|done].
Qed.

Lemma C9_distinct_listings_witness :
  all_states scenario = [Some "X"; Some "Y"]
  /\ districts_of "x" scenario = Some [Some "D1"; Some "D2"].
Proof.
  assert (Forall (fun c : college => is_Some (c !! "state")) scenario) as H
      by (apply (bool_decide_unpack _); vm_compute; exact I).
  destruct (proj2 (C9_distinct_listings scenario) "x" H) as (l & E & _).
  split; [by vm_compute|]. rewrite E. vm_compute in E. by injection E as <-.
Defined.

(** ** The shape of a handler's outcome *)

Lemma NodeCache_get_Some (now : Z) (key : string) (c : gmap string (payload * Z))
      (v : payload) :
  NodeCache.get now key c = Some v ->
  exists expires, c !! key = Some (v, expires) /\ now <= expires.
Proof.
  unfold NodeCache.get. destruct (c !! key) as [[v' e]|]; [|done].
  destruct (e <? now) eqn:E; [done|]. intros [= ->].
  exists e. split; [done|]. by apply Z.ltb_ge.
Qed.

Lemma post_search_served (now : Z) (body : gmap string jsval) (st : server) :
  served now st (post_search now body st).
Proof.
  unfold post_search.
  destruct (Validator.keyword_chain (body !! "keyword")) as [kw_errors trimmed].
  destruct (kw_errors ++ _) as [|e errors].
  - match goal with |- context [NodeCache.get now ?k (cache st)] => set (key := k) end.
    destruct (NodeCache.get now key (cache st)) as [v|] eqn:Eg.
    + left. split; [done|]. exists 200, v. split; [done|]. right. by exists key.
    + destruct (search_result (colleges st) trimmed) as [result|] eqn:Er.
      * right. eexists key, _. split; [done|]. split; [|done].
        by eapply fresh_search.
      * left. split; [done|]. eexists _, _. split; [done|]. by left.
  - left. split; [done|]. eexists _, _. split; [done|]. by left.
Qed.

Lemma get_by_field_served (field : string) (now : Z) (value : string)
      (query : gmap string string) (body : gmap string jsval) (st : server) :
  served now st (get_by_field field now value query body st).
Proof.
  unfold get_by_field.
  destruct (Validator.paging_chains body) as [|e errors].
  - match goal with |- context [NodeCache.get now ?k (cache st)] => set (key := k) end.
    destruct (NodeCache.get now key (cache st)) as [v|] eqn:Eg.
    + left. split; [done|]. exists 200, v. split; [done|]. right. by exists key.
    + destruct (filter_result field value (colleges st)) as [result|] eqn:Er.
      * right. eexists key, _. split; [done|]. split; [|done].
        by eapply fresh_filter.
      * left. split; [done|]. eexists _, _. split; [done|]. by left.
  - left. split; [done|]. eexists _, _. split; [done|]. by left.
Qed.

Lemma handle_served (now : Z) (r : request) (st : server) :
  served now st (handle now r st).
Proof.
  destruct r as [| |body|state query body|district query body| |state];
    cbn [handle].
  - left. split; [done|]. eexists _, _. split; [done|]. by left.
  - left. split; [done|]. eexists _, _. split; [done|]. by left.
  - apply post_search_served.
  - apply get_by_field_served.
  - apply get_by_field_served.
  - unfold get_allstates.
    destruct (NodeCache.get now "allstates" (cache st)) as [v|] eqn:Eg.
    + left. split; [done|]. exists 200, v. split; [done|]. right. by exists "allstates".
    + right. eexists "allstates", _. split; [done|]. split; [|done]. constructor.
  - unfold get_districts.
    destruct (NodeCache.get now ("districts:" +:+ state) (cache st)) as [v|] eqn:Eg.
    + left. split; [done|]. exists 200, v. split; [done|]. right. by eexists.
    + destruct (districts_of state (colleges st)) as [l|].
      * right. eexists _, _. split; [done|]. split; [|done]. constructor.
      * left. split; [done|]. eexists _, _. split; [done|]. by left.
Qed.

(** ** C10: the dataset is only read *)

Lemma filter_ex_elem_of {A} (p : A -> option bool) (l hits : list A) :
  filter_ex p l = Some hits -> Forall (fun x => x ∈ l) hits.
Proof.
  revert hits. induction l as [|x l IH]; intros hits; ex_step.
  - by intros [= <-].
  - destruct (p x) as [b|]; [|done]. ex_step.
    destruct (filter_ex p l) as [r|]; [|done]. ex_step. intros [= <-].
    specialize (IH r eq_refl).
    assert (Forall (fun y => y ∈ x :: l) r) as Hr.
    { eapply Forall_impl; [exact IH|]. intros y Hy. by right. }
    destruct b; [|done]. constructor; [left|done].
Qed.

Lemma map_ex_with_clean_name_copies (colleges hits result : list college) :
  Forall (fun c => c ∈ colleges) hits ->
  map_ex with_clean_name hits = Some result ->
  Forall (copy_of_stored colleges) result.
Proof.
  intros H. revert result. induction H as [|c l Hc _ IH]; intros result; ex_step.
  - by intros [= <-].
  - destruct (with_clean_name c) as [y|] eqn:Ey; [|done]. ex_step.
    destruct (map_ex with_clean_name l) as [r|]; [|done]. ex_step.
    intros [= <-]. constructor; [|by apply IH].
    unfold with_clean_name in Ey.
    destruct (c !! "name") as [name|] eqn:En; [|done].
    injection Ey as <-. by exists c, name.
Qed.

Lemma search_result_copies (colleges : list college) (keyword : string)
      (result : list college) :
  search_result colleges keyword = Some result ->
  Forall (copy_of_stored colleges) result.
Proof.
  unfold search_result.
  destruct (filter_ex _ colleges) as [hits|] eqn:E; [|done]. ex_step.
  by eapply map_ex_with_clean_name_copies, filter_ex_elem_of.
Qed.

Lemma filter_result_copies (field value : string) (colleges result : list college) :
  filter_result field value colleges = Some result ->
  Forall (copy_of_stored colleges) result.
Proof.
  unfold filter_result.
  destruct (filter_ex _ colleges) as [hits|] eqn:E; [|done]. ex_step.
  by eapply map_ex_with_clean_name_copies, filter_ex_elem_of.
Qed.

Lemma Forall_slice {A} (P : A -> Prop) (l : list A) (a b : jsnum) :
  Forall P l -> Forall P (slice l a b).
Proof. intros H. unfold slice. by apply Forall_take, Forall_drop. Qed.

Lemma fresh_payload_of_stored (colleges : list college) (p : payload) :
  fresh_payload colleges p -> page_of_stored colleges p.
Proof.
  destruct 1 as [kw pg lm result H|field value pg lm result H|l]; simpl; [| |done].
  - apply Forall_slice. by eapply search_result_copies.
  - apply Forall_slice. by eapply filter_result_copies.
Qed.

Lemma handle_keeps_colleges (now : Z) (r : request) (st : server) :
  colleges (handle now r st).2 = colleges st.
Proof.
  destruct (handle_served now r st) as [[-> _]|(key & p & _ & _ & ->)]; done.
Qed.

Lemma handle_cache_of_stored (now : Z) (r : request) (st : server) :
  cache_of_stored st ->
  cache_of_stored (handle now r st).2
  /\ forall status p, (handle now r st).1 = Reply status p ->
                      page_of_stored (colleges st) p.
Proof.
  intros Hinv.
  destruct (handle_served now r st)
    as [[-> (status & p & -> & Hp)]|(key & p & -> & Hf & ->)].
  - split; [done|]. intros ? ? [= <- <-].
    destruct Hp as [Hp|[key (e & Hk & _)%NodeCache_get_Some]].
    + by destruct p.
    + by eapply Hinv.
  - apply fresh_payload_of_stored in Hf. split.
    + intros k v e. unfold with_cache, NodeCache.set. cbn [cache colleges].
      rewrite lookup_insert. case_decide.
      * by intros [= <- <-].
      * apply Hinv.
    + by intros ? ? [= <- <-].
Qed.

Lemma copy_of_stored_mono (l l' : list college) (r : college) :
  l ⊆ l' -> copy_of_stored l r -> copy_of_stored l' r.
Proof. intros Hsub (c & name & Hc & Hn & ->). exists c, name. auto. Qed.

Lemma fold_on_data (rows : list college) (st : server) :
  colleges (fold_left on_data rows st) = colleges st ++ rows
  /\ cache (fold_left on_data rows st) = cache st.
Proof.
  revert st. induction rows as [|row rows IH]; intros st; simpl.
  - by rewrite app_nil_r.
  - destruct (IH (on_data st row)) as [-> ->]. simpl.
    by rewrite <- app_assoc.
Qed.

Lemma step_cache_of_stored (st : server) (e : event) :
  cache_of_stored st -> cache_of_stored (step st e).1.
Proof.
  intros Hinv. destruct e as [rows| |now r]; cbn [step fst]; [|done|].
  - destruct (fold_on_data rows st) as [Ec Eh].
    intros k v e. rewrite Ec, Eh. intros Hk. specialize (Hinv k v e Hk).
    destruct v; try done. simpl in *.
    eapply Forall_impl; [exact Hinv|]. intros rec.
    apply copy_of_stored_mono. set_solver.
  - destruct (handle now r st) as [rep st'] eqn:E. simpl.
    pose proof (proj1 (handle_cache_of_stored now r st Hinv)) as H.
    by rewrite E in H.
Qed.

Lemma run_cache_of_stored (evs : list event) (st : server) :
  cache_of_stored st -> cache_of_stored (run st evs).1.
Proof.
  revert st. induction evs as [|e evs IH]; intros st Hinv; [done|].
  cbn [run]. pose proof (step_cache_of_stored st e Hinv) as H1.
  destruct (step st e) as [st1 out]. specialize (IH st1 H1).
  by destruct (run st1 evs) as [st2 outs].
Qed.

Lemma boot_cache_of_stored : cache_of_stored boot.
Proof. intros k v e. unfold boot. simpl. by rewrite lookup_empty. Qed.

(** C10.  In every state the server reaches from start-up, handling a
    request leaves the [colleges] array as it was, rows and names included;
    and every record of a page it returns, computed or served from the
    cache, is a stored row in which only [name] was replaced by its
    normalized form: every other column has the stored value. *)
Theorem C10_queries_leave_dataset (evs : list event) (now : Z) (r : request) :
  let st := (run boot evs).1 in
  colleges (handle now r st).2 = colleges st
  /\ forall status resp,
      (handle now r st).1 = Reply status (Paged resp) ->
      Forall (fun rec : college =>
                exists (c : college) (name : string),
                  c ∈ colleges st
                  /\ c ∈ colleges (handle now r st).2
                  /\ c !! "name" = Some name
                  /\ rec !! "name" = Some (cleanCollegeName name)
                  /\ forall k, k <> "name" -> rec !! k = c !! k)
             (data resp).
Proof.
  intros st. split; [apply handle_keeps_colleges|].
  intros status resp E.
  pose proof (run_cache_of_stored evs boot boot_cache_of_stored) as Hinv.
  fold st in Hinv.
  pose proof (proj2 (handle_cache_of_stored now r st Hinv) _ _ E) as Hp.
  simpl in Hp. eapply Forall_impl; [exact Hp|].
  intros rec (c & name & Hc & Hn & ->). exists c, name.
  rewrite handle_keeps_colleges. split; [done|]. split; [done|]. split; [done|].
  split; [apply lookup_insert_eq|]. intros k Hk. by apply lookup_insert_ne.
Qed.

Lemma C10_queries_leave_dataset_witness :
  let st := (run boot [CsvRows scenario; CsvEnd]).1 in
  let out := handle 0 (PostSearch {[ "keyword" := JStr "abc" ]}) st in
  exists resp,
    out.1 = Reply 200 (Paged resp)
    /\ length (data resp) = 2%nat
    /\ Forall (fun rec : college =>
                 exists (c : college) (name : string),
                   c ∈ colleges st
                   /\ c ∈ colleges out.2
                   /\ c !! "name" = Some name
                   /\ rec !! "name" = Some (cleanCollegeName name)
                   /\ forall k, k <> "name" -> rec !! k = c !! k)
              (data resp).
Proof.
  eexists. split; [vm_compute; reflexivity|]. split; [reflexivity|].
  apply (proj2 (C10_queries_leave_dataset [CsvRows scenario; CsvEnd] 0
                  (PostSearch {[ "keyword" := JStr "abc" ]})) 200).
  vm_compute. reflexivity.
Defined.

(** ** Integer literals: [String], [Number] and [isInt] *)

Lemma digit_val_pretty (k : N) :
  (k < 10)%N -> JsNum.digit_val (pretty_N_char k) = Some (Z.of_N k).
Proof.
  intros H.
  assert (k = 0 \/ k = 1 \/ k = 2 \/ k = 3 \/ k = 4 \/ k = 5 \/ k = 6
          \/ k = 7 \/ k = 8 \/ k = 9)%N as Hk by lia.
  repeat (destruct Hk as [-> | Hk]; [reflexivity|]). by subst.
Qed.

Lemma digits_val_app (acc : Z) (a b : list ascii) :
  JsNum.digits_val acc (a ++ b)
  = match JsNum.digits_val acc a with
    | Some v => JsNum.digits_val v b
    | None => None
    end.
Proof.
  revert acc. induction a as [|c a IH]; intros acc; simpl; [done|].
  destruct (JsNum.digit_val c); [apply IH|done].
Qed.

Lemma digits_val_Some (acc : Z) (l : list ascii) (v : Z) :
  JsNum.digits_val acc l = Some v -> Forall (fun c => is_Some (JsNum.digit_val c)) l.
Proof.
  revert acc. induction l as [|c l IH]; intros acc; simpl; [constructor|].
  destruct (JsNum.digit_val c) eqn:E; [|done].
  intros H. constructor; [by rewrite E|by eapply IH].
Qed.

Lemma chars_pretty_N_go (x : N) (s : string) :
  chars (pretty_N_go x s) = chars (pretty_N_go x "") ++ chars s.
Proof.
  revert s. induction (N.lt_wf_0 x) as [x _ IH]; intros s.
  destruct (decide (x = 0)%N) as [->|Hx]; [by rewrite !pretty_N_go_0|].
  rewrite !(pretty_N_go_step x) by lia.
  rewrite (IH (x `div` 10)%N) by (apply N.div_lt; lia).
  rewrite (IH (x `div` 10)%N ltac:(apply N.div_lt; lia) (String _ "")).
  by rewrite <- app_assoc.
Qed.

Lemma digits_val_pretty_N_go (x : N) :
  JsNum.digits_val 0 (chars (pretty_N_go x "")) = Some (Z.of_N x).
Proof.
  induction (N.lt_wf_0 x) as [x _ IH].
  destruct (decide (x = 0)%N) as [->|Hx]; [done|].
  rewrite pretty_N_go_step, chars_pretty_N_go, digits_val_app by lia.
  rewrite IH by (apply N.div_lt; lia). cbn [chars list_ascii_of_string JsNum.digits_val].
  rewrite digit_val_pretty by (apply N.mod_lt; lia).
  f_equal. pose proof (N.div_mod x 10 ltac:(lia)). lia.
Qed.

Lemma digit_not_sign (c : ascii) :
  is_Some (JsNum.digit_val c) -> is_char "-" c = false /\ is_char "+" c = false.
Proof.
  intros [d Hd]. split; apply is_char_false; intros ->; by vm_compute in Hd.
Qed.

Lemma parse_int_pretty (z : Z) : JsNum.parse_int (pretty z) = Some z.
Proof.
  assert (forall p, JsNum.parse_digits (chars (pretty (N.pos p))) = Some (Z.pos p)
                    /\ exists c t, chars (pretty (N.pos p)) = c :: t
                                   /\ is_Some (JsNum.digit_val c)) as Hpos.
  { intros p. unfold pretty, pretty_N. rewrite decide_False by done.
    pose proof (digits_val_pretty_N_go (N.pos p)) as H.
    destruct (chars (pretty_N_go (N.pos p) "")) as [|c t] eqn:E; [done|].
    split; [done|]. exists c, t. split; [done|].
    apply digits_val_Some in H. by inversion H. }
  unfold JsNum.parse_int. destruct z as [|p|p]; [done| |].
  - destruct (Hpos p) as (H & c & t & E & Hc).
    change (pretty (Z.pos p)) with (pretty (N.pos p)).
    rewrite E in *. unfold JsNum.parse_int_chars.
    destruct (digit_not_sign c Hc) as [-> ->]. done.
  - destruct (Hpos p) as (H & _).
    change (pretty (Z.neg p)) with ("-" +:+ pretty (N.pos p)).
    rewrite chars_app. change (chars "-") with ["-"%char].
    cbn [app JsNum.parse_int_chars].
    change (is_char "-" "-") with true. cbn match. by rewrite H.
Qed.

Lemma parse_int_chars_shape (l : list ascii) (z : Z) :
  JsNum.parse_int_chars l = Some z -> l <> [] /\ Forall int_char l.
Proof.
  assert (forall l v, JsNum.parse_digits l = Some v -> Forall int_char l) as Hd.
  { intros l' v H. destruct l' as [|c t]; [done|].
    change (JsNum.digits_val 0 (c :: t) = Some v) in H.
    apply digits_val_Some in H. eapply Forall_impl; [exact H|].
    intros ? ?. by left. }
  destruct l as [|c t]; [done|]. intros H. split; [done|].
  unfold JsNum.parse_int_chars in H.
  destruct (is_char "-" c) eqn:Em.
  - apply is_char_true in Em as ->.
    destruct (JsNum.parse_digits t) eqn:Et; [|done].
    constructor; [right; by left|by eapply Hd].
  - destruct (is_char "+" c) eqn:Ep.
    + apply is_char_true in Ep as ->.
      constructor; [right; by right|by eapply Hd].
    + by eapply Hd.
Qed.

Lemma int_char_not_white (c : ascii) : int_char c -> is_white c = false.
Proof.
  intros [[d Hd]|[-> | ->]]; [|done..].
  unfold JsNum.digit_val in Hd. unfold is_white.
  destruct (_ && _)%N eqn:E in Hd; [|done].
  apply andb_true_iff in E as [E1%N.leb_le E2%N.leb_le].
  repeat match goal with
         | |- context [(?a <=? ?b)%N] => destruct (N.leb_spec a b)
         | |- context [(?a =? ?b)%N] => destruct (N.eqb_spec a b)
         end; simpl; try done; lia.
Qed.

Lemma int_char_not_colon (c : ascii) : int_char c -> c <> ":"%char.
Proof. intros [[d Hd]|[-> | ->]]; [|done..]. intros ->. by vm_compute in Hd. Qed.

Lemma parse_int_of_string (s : string) (z : Z) :
  JsNum.parse_int s = Some z -> JsNum.of_string s = Fin z.
Proof.
  intros H. pose proof H as [Hne Hall]%parse_int_chars_shape.
  assert (trim s = s) as Ht.
  { unfold trim. rewrite trim_chars_id; [apply str_chars|].
    split; intros c t E; apply int_char_not_white; rewrite E in Hall.
    - by inversion Hall.
    - apply Forall_app in Hall as [_ Hc]. by inversion Hc. }
  unfold JsNum.of_string. rewrite Ht.
  rewrite decide_False; [by rewrite H|].
  intros ->. by apply Hne.
Qed.

(** What passing [isInt] means for the handler that runs afterwards: the
    value is an integer in the range, its [Number] is that integer, and the
    text a template literal makes of it has no colon. *)
Lemma isInt_sound (min : Z) (max : option Z) (v : jsval) :
  Validator.isInt min max (Some v) = true ->
  exists z, int_in_range min max v z
            /\ ToNumber v = Fin z
            /\ JsNum.parse_int (ToString v) = Some z
            /\ ":"%char ∉ chars (ToString v).
Proof.
  unfold Validator.isInt. intros H.
  destruct (JsNum.parse_int (Validator.to_string (Some v))) as [z|] eqn:Ez; [|done].
  apply andb_true_iff in H as [Hmin%Z.leb_le Hmax].
  assert (forall m, max = Some m -> z <= m) as Hmax'.
  { intros m ->. by apply Z.leb_le. }
  assert (JsNum.parse_int (ToString v) = Some z /\ ToNumber v = Fin z
          /\ (v = JNum (Fin z) \/ exists s, v = JStr s /\ JsNum.parse_int s = Some z))
    as (Hp & Hn & Hv).
  { destruct v as [[z'| | |]|s]; simpl in *; try done.
    - rewrite parse_int_pretty in Ez. injection Ez as ->.
      split; [apply parse_int_pretty|]. split; [done|]. by left.
    - split; [done|]. split; [by apply parse_int_of_string|]. right. by exists s. }
  exists z. split; [done|]. split; [done|]. split; [done|].
  apply parse_int_chars_shape in Hp as [_ Hall]. intros Hin.
  rewrite Forall_forall in Hall. by apply (int_char_not_colon _ (Hall _ Hin)).
Qed.

Lemma isInt_complete (min : Z) (max : option Z) (v : jsval) (z : Z) :
  int_in_range min max v z -> Validator.isInt min max (Some v) = true.
Proof.
  intros (Hv & Hmin & Hmax). unfold Validator.isInt.
  assert (JsNum.parse_int (Validator.to_string (Some v)) = Some z) as ->.
  { destruct Hv as [-> | (s & -> & Hs)]; [apply parse_int_pretty|done]. }
  apply andb_true_iff. split; [by apply Z.leb_le|].
  destruct max as [m|]; [|done]. apply Z.leb_le. by apply Hmax.
Qed.

(** ** The validation of [/colleges/search] *)

Lemma keyword_chain_ok (v : option jsval) :
  (Validator.keyword_chain v).1 = []
  <-> exists s, v = Some (JStr s) /\ trim s <> "".
Proof.
  unfold Validator.keyword_chain, Validator.notEmpty. cbn [fst]. split.
  - intros [H1 H2]%app_eq_nil.
    destruct v as [[n|s]|]; simpl in H1; try done.
    exists s. split; [done|]. simpl in H2. by case_bool_decide.
  - intros (s & -> & Hs). simpl. by rewrite bool_decide_eq_false_2.
Qed.

Lemma optional_int_ok (field : string) (min : Z) (max : option Z) (v : option jsval) :
  Validator.optional_int field min max v = [] <-> optional_int_in_range min max v.
Proof.
  destruct v as [v|]; simpl; [|done].
  destruct (Validator.isInt min max (Some v)) eqn:E.
  - split; [|done]. intros _.
    apply isInt_sound in E as (z & Hz & _). by exists z.
  - split; [done|]. intros (z & Hz%isInt_complete). congruence.
Qed.

Lemma search_validation_ok (body : gmap string jsval) :
  (Validator.keyword_chain (body !! "keyword")).1
    ++ Validator.paging_chains
         (<["keyword" := JStr (Validator.keyword_chain (body !! "keyword")).2]> body)
  = []
  <-> valid_search_body body.
Proof.
  unfold Validator.paging_chains, valid_search_body.
  rewrite !lookup_insert_ne by done.
  rewrite <- keyword_chain_ok, <- !optional_int_ok.
  split.
  - intros [H1 [H2 H3]%app_eq_nil]%app_eq_nil. eauto.
  - intros (-> & -> & ->). done.
Qed.

(** The search route turns away everything outside its parameter ranges
    with status 400 and one error per failing check, before the cache or the
    dataset is looked at: the state is returned as it was. *)
Lemma post_search_rejects (now : Z) (body : gmap string jsval) (st : server) :
  ~ valid_search_body body ->
  exists errors, errors <> []
                 /\ post_search now body st = (Reply 400 (Errors errors), st).
Proof.
  intros Hv. rewrite <- search_validation_ok in Hv. unfold post_search.
  destruct (Validator.keyword_chain (body !! "keyword")) as [kw_errors trimmed].
  cbn [fst snd] in Hv. destruct (kw_errors ++ _) as [|e errors]; [done|].
  by exists (e :: errors).
Qed.

Lemma post_search_accepts (now : Z) (body : gmap string jsval) (st : server) :
  valid_search_body body ->
  forall errors, (post_search now body st).1 <> Reply 400 (Errors errors).
Proof.
  intros Hv errors. rewrite <- search_validation_ok in Hv. unfold post_search.
  destruct (Validator.keyword_chain (body !! "keyword")) as [kw_errors trimmed].
  cbn [fst snd] in Hv. rewrite Hv.
  destruct (NodeCache.get _ _ _) as [v|] eqn:Eg; [|by destruct (search_result _ _)].
  by intros [= ?].
Qed.

Lemma optional_int_number (min : Z) (max : option Z) (v : option jsval) (d : Z) :
  optional_int_in_range min max v ->
  min <= d -> (forall m, max = Some m -> d <= m) ->
  exists z, ToNumber (default (JNum (Fin d)) v) = Fin z
            /\ min <= z /\ forall m, max = Some m -> z <= m.
Proof.
  intros Hv Hd1 Hd2. destruct v as [v|]; simpl; [|by exists d].
  destruct Hv as (z & Hz & Hmin & Hmax). exists z. split; [|done].
  destruct Hz as [-> | (s & -> & Hs)]; [done|]. by apply parse_int_of_string.
Qed.

(** Whatever the search route lets past its validation has a non-empty
    keyword, a page number that is an integer from 1 up and a limit that is
    an integer from 1 to 100: nothing else reaches the cache, the filter or
    the slice. *)
Lemma post_search_past_validation (now : Z) (body : gmap string jsval) (st : server) :
  (forall errors, post_search now body st <> (Reply 400 (Errors errors), st)) ->
  valid_search_body body
  /\ exists p l,
      ToNumber (default (JNum (Fin 1)) (body !! "page")) = Fin p /\ 1 <= p
      /\ ToNumber (default (JNum (Fin 10)) (body !! "limit")) = Fin l
      /\ 1 <= l <= 100.
Proof.
  intros Hpass.
  assert (valid_search_body body) as Hv.
  { apply search_validation_ok.
    destruct (_ ++ _) as [|e errors] eqn:E; [done|].
    assert (~ valid_search_body body) as Hn.
    { rewrite <- search_validation_ok, E. done. }
    destruct (post_search_rejects now body st Hn) as (errs & _ & Hr).
    by destruct (Hpass errs). }
  split; [done|]. destruct Hv as (_ & Hp & Hl).
  destruct (optional_int_number 1 None _ 1 Hp) as (p & Ep & Hp1 & _); [lia|done|].
  destruct (optional_int_number 1 (Some 100) _ 10 Hl) as (l & El & Hl1 & Hl2);
    [lia|intros m [= <-]; lia|].
  exists p, l. specialize (Hl2 100 eq_refl). done.
Qed.

(** ** C3: validation on the GET routes *)

(** C3 fails on the state and district routes.  Their validation chains are
    [body('page')] and [body('limit')], so they inspect the request body,
    while the handler takes [page] and [limit] from the query string: what
    the query string carries is never validated.  [GET /colleges/state/X?limit=0]
    (or [?page=abc]) passes, reaches the filter, the slice and the cache, and
    is answered with status 200; [totalPages] is [Math.ceil(2 / 0)].  The
    search route, whose chains and handler both read the body, rejects the
    same values (see [post_search_rejects], [post_search_past_validation]). *)
Theorem C3_state_route_unvalidated_query :
  let st := {| colleges := scenario; cache := ∅ |} in
  let zero := get_state 0 "X" {[ "limit" := "0" ]} ∅ st in
  let text := get_state 0 "X" {[ "page" := "abc" ]} ∅ st in
  (exists resp,
      zero.1 = Reply 200 (Paged resp)
      /\ data resp = [] /\ limit resp = JNum (Fin 0)
      /\ total resp = 2%nat /\ totalPages resp = PosInf
      /\ is_Some (cache zero.2 !! "state:X:1:0"))
  /\ (exists resp,
         text.1 = Reply 200 (Paged resp)
         /\ data resp = [] /\ page resp = JNum NaN /\ total resp = 2%nat
         /\ is_Some (cache text.2 !! "state:X:abc:10"))
  /\ (post_search 0 {[ "keyword" := JStr "abc"; "limit" := JStr "0" ]} st).1
     = Reply 400 (Errors ["limit"])
  /\ (post_search 0 {[ "keyword" := JStr "abc"; "page" := JStr "abc" ]} st).1
     = Reply 400 (Errors ["page"]).
Proof.
  split; [|split; [|split]].
  - eexists. split; [vm_compute; reflexivity|].
    repeat split; try (vm_compute; reflexivity).
    eexists. vm_compute. reflexivity.
  - eexists. split; [vm_compute; reflexivity|].
    repeat split; try (vm_compute; reflexivity).
    eexists. vm_compute. reflexivity.
  - vm_compute. reflexivity.
  - vm_compute. reflexivity.
Qed.

(** ** Cache keys *)

Lemma first_occurrence_unique {A} (c : A) (x y a b : list A) :
  c ∉ x -> c ∉ y -> x ++ c :: a = y ++ c :: b -> x = y /\ a = b.
Proof.
  revert y. induction x as [|e x IH]; intros [|d y] Hx Hy E; simpl in E.
  - by injection E.
  - injection E as -> _. destruct Hy. left.
  - injection E as -> _. destruct Hx. left.
  - injection E as -> E.
    apply not_elem_of_cons in Hx as [_ Hx]. apply not_elem_of_cons in Hy as [_ Hy].
    destruct (IH y Hx Hy E) as [-> ->]. done.
Qed.

Lemma last_occurrence_unique {A} (c : A) (x y a b : list A) :
  c ∉ x -> c ∉ y -> a ++ c :: x = b ++ c :: y -> a = b /\ x = y.
Proof.
  intros Hx Hy E. apply (f_equal reverse) in E.
  rewrite !reverse_app, !reverse_cons, <- !app_assoc in E. simpl in E.
  apply first_occurrence_unique in E as [E1 E2]; [|by rewrite elem_of_reverse..].
  split; [by apply (inj reverse)|by apply (inj reverse)].
Qed.

(** Within one route the key determines the value searched for and the text
    of [page] and [limit], as long as those two contain no colon, which is so
    for every value [isInt] lets through. *)
Lemma cache_key_inj (tag v1 v2 : string) (p1 l1 p2 l2 : jsval) :
  ":"%char ∉ chars (ToString p1) -> ":"%char ∉ chars (ToString l1) ->
  ":"%char ∉ chars (ToString p2) -> ":"%char ∉ chars (ToString l2) ->
  cache_key tag v1 p1 l1 = cache_key tag v2 p2 l2 ->
  v1 = v2 /\ ToString p1 = ToString p2 /\ ToString l1 = ToString l2.
Proof.
  intros Hp1 Hl1 Hp2 Hl2 E. apply (f_equal chars) in E.
  unfold cache_key in E. rewrite !chars_app in E.
  apply app_inv_head, app_inv_head in E.
  assert (forall v P L : list ascii,
             v ++ chars ":" ++ P ++ chars ":" ++ L
             = (v ++ ":"%char :: P) ++ ":"%char :: L) as Hshape.
  { intros v P L. by rewrite <- app_assoc. }
  rewrite !Hshape in E.
  apply last_occurrence_unique in E as [E El]; [|done..].
  apply last_occurrence_unique in E as [Ev Ep]; [|done..].
  repeat split; by apply chars_inj.
Qed.

(** Two requests that passed [isInt] and share a key ask for the same value,
    the same page number and the same limit. *)
Lemma same_key_same_query (tag v1 v2 : string) (p1 l1 p2 l2 : jsval) :
  Validator.isInt 1 None (Some p1) = true ->
  Validator.isInt 1 (Some 100) (Some l1) = true ->
  Validator.isInt 1 None (Some p2) = true ->
  Validator.isInt 1 (Some 100) (Some l2) = true ->
  cache_key tag v1 p1 l1 = cache_key tag v2 p2 l2 ->
  v1 = v2 /\ ToNumber p1 = ToNumber p2 /\ ToNumber l1 = ToNumber l2.
Proof.
  intros (zp1 & _ & Np1 & Sp1 & Cp1)%isInt_sound (zl1 & _ & Nl1 & Sl1 & Cl1)%isInt_sound
         (zp2 & _ & Np2 & Sp2 & Cp2)%isInt_sound (zl2 & _ & Nl2 & Sl2 & Cl2)%isInt_sound E.
  apply cache_key_inj in E as (-> & Ep & El); [|done..].
  rewrite Ep in Sp1. rewrite El in Sl1. split; [done|]. split; congruence.
Qed.

(** On the state and district routes the envelope holds [Number(page)] and
    [Number(limit)], so among queries that are integer literals the payload
    is a function of the key: a hit is what a recomputation gives. *)
Lemma filter_response_by_key (field v1 v2 : string) (p1 l1 p2 l2 : jsval)
      (colleges : list college) :
  Validator.isInt 1 None (Some p1) = true ->
  Validator.isInt 1 (Some 100) (Some l1) = true ->
  Validator.isInt 1 None (Some p2) = true ->
  Validator.isInt 1 (Some 100) (Some l2) = true ->
  cache_key field v1 p1 l1 = cache_key field v2 p2 l2 ->
  forall r1 r2,
    filter_result field v1 colleges = Some r1 ->
    filter_result field v2 colleges = Some r2 ->
    filter_response r1 p1 l1 = filter_response r2 p2 l2.
Proof.
  intros H1 H2 H3 H4 E r1 r2 E1 E2.
  destruct (same_key_same_query _ _ _ _ _ _ _ H1 H2 H3 H4 E) as (-> & Ep & El).
  assert (r1 = r2) as -> by congruence.
  unfold filter_response, paginate, total_pages. by rewrite Ep, El.
Qed.

(** On the search route the same holds for everything but the echo of
    [page] and [limit], which keeps the JSON type of the request. *)
Lemma search_response_by_key (v1 v2 : string) (p1 l1 p2 l2 : jsval)
      (colleges : list college) :
  Validator.isInt 1 None (Some p1) = true ->
  Validator.isInt 1 (Some 100) (Some l1) = true ->
  Validator.isInt 1 None (Some p2) = true ->
  Validator.isInt 1 (Some 100) (Some l2) = true ->
  cache_key "search" v1 p1 l1 = cache_key "search" v2 p2 l2 ->
  forall r1 r2,
    search_result colleges v1 = Some r1 ->
    search_result colleges v2 = Some r2 ->
    let a := search_response r1 p1 l1 in
    let b := search_response r2 p2 l2 in
    data a = data b /\ total a = total b /\ totalPages a = totalPages b
    /\ ToNumber (page a) = ToNumber (page b)
    /\ ToNumber (limit a) = ToNumber (limit b).
Proof.
  intros H1 H2 H3 H4 E r1 r2 E1 E2.
  destruct (same_key_same_query _ _ _ _ _ _ _ H1 H2 H3 H4 E) as (-> & Ep & El).
  assert (r1 = r2) as -> by congruence.
  simpl. unfold paginate, total_pages. by rewrite Ep, El.
Qed.

(** ** C2: the response cache *)

(** C2 fails on the search route.  Its key is built from the text of [page]
    and [limit], while its envelope echoes them with their JSON type; the
    state and district routes echo [Number(page)] and [Number(limit)]
    instead.  A body with [page: "1"] and a body with [page: 1] are both
    accepted by [isInt], share the key [search:abc:1:10], and are answered
    differently when computed ([page] is the string ["1"] for one, the
    number [1] for the other).  After the first has filled the cache, the
    second is served the first one's envelope. *)
Theorem C2_search_cache_hit_differs :
  let st := {| colleges := scenario; cache := ∅ |} in
  let as_string : gmap string jsval := {[ "keyword" := JStr "abc"; "page" := JStr "1" ]} in
  let as_number : gmap string jsval := {[ "keyword" := JStr "abc"; "page" := JNum (Fin 1) ]} in
  let warmed := (post_search 0 as_string st).2 in
  valid_search_body as_string /\ valid_search_body as_number
  /\ exists hit direct,
      (post_search 1000 as_number warmed).1 = Reply 200 (Paged hit)
      /\ (post_search 1000 as_number st).1 = Reply 200 (Paged direct)
      /\ page hit = JStr "1"
      /\ page direct = JNum (Fin 1)
      /\ hit <> direct.
Proof.
  split; [apply search_validation_ok; vm_compute; reflexivity|].
  split; [apply search_validation_ok; vm_compute; reflexivity|].
  eexists _, _. split; [vm_compute; reflexivity|]. split; [vm_compute; reflexivity|].
  split; [reflexivity|]. split; [reflexivity|]. intros [=].
Qed.

(** With the query string unvalidated (see C3), two different queries of the
    state route can also meet on one key: a colon in the state name is
    indistinguishable from the separator. *)
Lemma state_route_key_collision :
  let st := {| colleges := [ {[ "name" := "N"; "state" := "a" ]} ]; cache := ∅ |} in
  let q1 : gmap string string := {[ "page" := "2" ]} in
  let q2 : gmap string string := {[ "page" := "1:2" ]} in
  cache_key "state" "a:1" (JStr "2") (JNum (Fin 10))
  = cache_key "state" "a" (JStr "1:2") (JNum (Fin 10))
  /\ (get_state 0 "a" q2 ∅ st).1
     <> (get_state 0 "a" q2 ∅ (get_state 0 "a:1" q1 ∅ st).2).1.
Proof. split; [reflexivity|]. vm_compute. intros [=]. Qed.

(** ** C4: start-up *)

Lemma run_app (st : server) (a b : list event) :
  run st (a ++ b)
  = ((run (run st a).1 b).1, (run st a).2 ++ (run (run st a).1 b).2).
Proof.
  revert st. induction a as [|e a IH]; intros st; cbn [run app fst snd].
  - by destruct (run st b).
  - destruct (step st e) as [st1 out]. rewrite IH.
    destruct (run st1 a) as [st2 outs]. cbn [fst snd].
    destruct (run st2 b) as [st3 outs']. cbn [fst snd]. by rewrite app_assoc.
Qed.

Lemma colleges_run (st : server) (evs : list event) :
  colleges (run st evs).1 = colleges st ++ rows_of evs.
Proof.
  revert st. induction evs as [|e evs IH]; intros st; cbn [run].
  - unfold rows_of. simpl. by rewrite app_nil_r.
  - destruct (step st e) as [st1 out] eqn:Es. specialize (IH st1).
    destruct (run st1 evs) as [st2 outs]. cbn [fst] in *. rewrite IH.
    unfold rows_of. cbn [map concat]. fold (rows_of evs). rewrite app_assoc. f_equal.
    destruct e as [rows| |now r]; cbn [step] in Es.
    + injection Es as <- _. apply fold_on_data.
    + injection Es as <- _. by rewrite app_nil_r.
    + pose proof (handle_keeps_colleges now r st) as H.
      destruct (handle now r st) as [rep st']. injection Es as <- _.
      by rewrite app_nil_r.
Qed.

Lemma rows_of_app (a b : list event) : rows_of (a ++ b) = rows_of a ++ rows_of b.
Proof. unfold rows_of. by rewrite map_app, concat_app. Qed.

(** C4, as stated, fails on the code: [app.listen] is called while the
    module is evaluated, not from the ['end'] listener, so a request can be
    handled between two chunks of the file.  Here the file arrives in two
    chunks and [/colleges/total] is asked in between: the answer counts one
    row of three. *)
Lemma C4_counterexample_partial_load :
  let pre := [CsvRows (take 1 scenario)] in
  let post := [CsvRows (drop 1 scenario); CsvEnd] in
  rows_of (pre ++ Incoming 0 GetTotal :: post) = scenario
  /\ (run boot (pre ++ Incoming 0 GetTotal :: post)).2 = [Reply 200 (TotalCount 1)]
  /\ dataset_after pre <> []
  /\ dataset_after pre <> scenario.
Proof.
  split; [reflexivity|]. split; [reflexivity|].
  split; vm_compute; intros [=].
Qed.

(** A payload cached during the load is served for ten minutes, also after
    the load has ended. *)
Lemma partial_listing_outlives_load :
  (run boot [CsvRows (take 1 scenario); Incoming 0 GetAllStates;
             CsvRows (drop 1 scenario); CsvEnd; Incoming 1000 GetAllStates]).2
  = [Reply 200 (Names [Some "X"]); Reply 200 (Names [Some "X"])]
  /\ all_states scenario = [Some "X"; Some "Y"].
Proof. split; vm_compute; reflexivity. Qed.

(** C4, amended.  The server takes requests from start-up on, without
    waiting for the CSV load.  A request is handled on the rows delivered
    before it: the empty dataset before the first chunk, a prefix of the
    file while the load is under way, the whole file once the last chunk has
    been delivered (so after ['end']).  A handler never sees part of a chunk. *)
Theorem C4_requests_see_loaded_prefix (pre post : list event) (now : Z) (r : request) :
  let all := pre ++ Incoming now r :: post in
  let st := (run boot pre).1 in
  colleges st = rows_of pre
  /\ (run boot all).2
     = (run boot pre).2 ++ (handle now r st).1 :: (run (handle now r st).2 post).2
  /\ rows_of all = colleges st ++ rows_of post
  /\ (rows_of pre = [] -> colleges st = [])
  /\ (rows_of post = [] -> colleges st = rows_of all).
Proof.
  intros all st.
  assert (colleges st = rows_of pre) as Hst by apply (colleges_run boot pre).
  assert (rows_of all = colleges st ++ rows_of post) as Hall.
  { unfold all. rewrite rows_of_app, Hst. done. }
  split; [done|]. split.
  - unfold all. rewrite run_app. cbn [snd run step]. fold st.
    destruct (handle now r st) as [rep st']. cbn [fst snd].
    by destruct (run st' post).
  - split; [done|]. split.
    + intros E. by rewrite Hst.
    + intros E. by rewrite Hall, E, app_nil_r.
Qed.

Lemma C4_requests_see_loaded_prefix_witness :
  colleges (run boot [CsvRows scenario; CsvEnd]).1
  = rows_of ([CsvRows scenario; CsvEnd] ++ Incoming 0 GetTotal :: [])
  /\ colleges (run boot []).1 = [].
Proof.
  split.
  - apply (C4_requests_see_loaded_prefix [CsvRows scenario; CsvEnd] [] 0 GetTotal).
    reflexivity.
  - apply (C4_requests_see_loaded_prefix [] [] 0 GetTotal). reflexivity.
Defined.

(** * Further properties of the routes *)

(** ** Handlers as plans *)

Lemma handle_plan (now : Z) (r : request) (st : server) :
  handle now r st = execute now (plan_of r) st.
Proof.
  destruct r as [| |body|state query body|district query body| |state];
    cbn [handle plan_of]; try reflexivity.
  - unfold post_search, search_plan.
    destruct (Validator.keyword_chain (body !! "keyword")) as [kw_errors trimmed].
    destruct (kw_errors ++ _) as [|e errors]; [|reflexivity].
    cbn [execute]. destruct (NodeCache.get _ _ _); [reflexivity|].
    by destruct (search_result _ _).
  - unfold get_state, get_by_field, field_plan.
    destruct (Validator.paging_chains body) as [|e errors]; [|reflexivity].
    cbn [execute]. destruct (NodeCache.get _ _ _); [reflexivity|].
    by destruct (filter_result _ _ _).
  - unfold get_district, get_by_field, field_plan.
    destruct (Validator.paging_chains body) as [|e errors]; [|reflexivity].
    cbn [execute]. destruct (NodeCache.get _ _ _); [reflexivity|].
    by destruct (filter_result _ _ _).
  - unfold get_districts. cbn [execute]. destruct (NodeCache.get _ _ _); [reflexivity|].
    by destruct (districts_of _ _).
Qed.

Lemma NodeCache_get_set (now now' : Z) (key : string) (v : payload)
      (c : gmap string (payload * Z)) :
  NodeCache.get now' key (NodeCache.set now key v c)
  = if now + 600000 <? now' then None else Some v.
Proof.
  unfold NodeCache.get, NodeCache.set, NodeCache.stdTTL.
  rewrite lookup_insert_eq. by replace (now + 600 * 1000) with (now + 600000) by lia.
Qed.

Lemma NodeCache_get_live (now : Z) (key : string) (v : payload)
      (c : gmap string (payload * Z)) :
  NodeCache.get now key c = Some v <-> live now c key v.
Proof.
  split; [apply NodeCache_get_Some|].
  intros (e & He & Hle). unfold NodeCache.get. rewrite He.
  by rewrite (proj2 (Z.ltb_ge e now)).
Qed.

(** What it takes for a plan to write the cache. *)
Lemma execute_writes (now : Z) (p : plan) (st : server) :
  (execute now p st).2 <> st ->
  exists key compute v,
    p = Memo key compute
    /\ NodeCache.get now key (cache st) = None
    /\ compute (colleges st) = Some v
    /\ execute now p st
       = (Reply 200 v, with_cache st (NodeCache.set now key v (cache st))).
Proof.
  destruct p as [answer|key compute]; cbn [execute snd]; [done|].
  destruct (NodeCache.get now key (cache st)) eqn:Eg; [done|].
  destruct (compute (colleges st)) as [v|] eqn:Ec; [|done].
  intros _. by exists key, compute, v.
Qed.

(** ** The cache as the handlers use it *)

(** A response computed and cached at time [now] is replayed to the same
    request at any time up to [now + 600000] ms: the reply is the same, the
    state is not touched, and rows pushed by the CSV load in between do not
    show in it. *)
Theorem cached_reply_is_replayed (now now' : Z) (r : request) (st : server)
        (rows : list college) :
  (handle now r st).2 <> st -> now' <= now + 600000 ->
  let st1 := fold_left on_data rows (handle now r st).2 in
  handle now' r st1 = ((handle now r st).1, st1).
Proof.
  rewrite !handle_plan.
  intros (key & compute & v & Hp & Hmiss & Hv & Hex)%execute_writes Hnow.
  cbv zeta. rewrite Hex. cbn [fst snd].
  set (st1 := fold_left on_data rows _).
  rewrite handle_plan, Hp. cbn [execute].
  destruct (fold_on_data rows (with_cache st (NodeCache.set now key v (cache st))))
    as [_ Hc].
  fold st1 in Hc. rewrite Hc. cbn [with_cache cache].
  rewrite NodeCache_get_set. by rewrite (proj2 (Z.ltb_ge _ _)) by lia.
Qed.

Lemma cached_reply_is_replayed_witness :
  let st := (run boot [CsvRows (take 1 scenario)]).1 in
  handle 600000 GetAllStates (fold_left on_data (drop 1 scenario) (handle 0 GetAllStates st).2)
  = (Reply 200 (Names [Some "X"]),
     fold_left on_data (drop 1 scenario) (handle 0 GetAllStates st).2).
Proof.
  intros st.
  apply (cached_reply_is_replayed 0 600000 GetAllStates st (drop 1 scenario)); [|lia].
  intros E. apply (f_equal (fun s => cache s !! "allstates")) in E.
  vm_compute in E. discriminate.
Defined.

(** Once the 600 seconds are over the entry counts for nothing: the same
    request is answered as it would be with an empty cache, from the dataset
    as it then is. *)
Theorem expired_entry_is_recomputed (now now' : Z) (r : request) (st : server)
        (rows : list college) :
  (handle now r st).2 <> st -> now + 600000 < now' ->
  let st1 := fold_left on_data rows (handle now r st).2 in
  (handle now' r st1).1
  = (handle now' r {| colleges := colleges st1; cache := ∅ |}).1.
Proof.
  rewrite !handle_plan.
  intros (key & compute & v & Hp & Hmiss & Hv & Hex)%execute_writes Hnow.
  cbv zeta. rewrite Hex. cbn [fst snd].
  set (st1 := fold_left on_data rows _).
  rewrite !handle_plan, Hp. cbn [execute].
  destruct (fold_on_data rows (with_cache st (NodeCache.set now key v (cache st))))
    as [_ Hc].
  fold st1 in Hc. rewrite Hc. cbn [with_cache cache colleges].
  rewrite NodeCache_get_set, (proj2 (Z.ltb_lt _ _)) by lia.
  unfold NodeCache.get at 1. rewrite lookup_empty.
  by destruct (compute (colleges st1)).
Qed.

Lemma expired_entry_is_recomputed_witness :
  let st := (run boot [CsvRows (take 1 scenario)]).1 in
  (handle 600001 GetAllStates
          (fold_left on_data (drop 1 scenario) (handle 0 GetAllStates st).2)).1
  = Reply 200 (Names [Some "X"; Some "Y"]).
Proof.
  intros st.
  rewrite (expired_entry_is_recomputed 0 600001 GetAllStates st (drop 1 scenario));
    [vm_compute; reflexivity| |lia].
  intros E. apply (f_equal (fun s => cache s !! "allstates")) in E.
  vm_compute in E. discriminate.
Defined.

(** A request changes at most one entry of the cache, and never one that a
    lookup would still return: an entry stays as it is, value and expiry,
    until it has expired. *)
Theorem live_entries_are_kept (now : Z) (r : request) (st : server) :
  (forall key v expires,
      cache st !! key = Some (v, expires) -> now <= expires ->
      cache (handle now r st).2 !! key = Some (v, expires))
  /\ exists k, forall key, key <> k ->
                           cache (handle now r st).2 !! key = cache st !! key.
Proof.
  rewrite handle_plan.
  destruct (plan_of r) as [answer|k compute]; cbn [execute].
  { split; [done|]. by exists "". }
  destruct (NodeCache.get now k (cache st)) as [hit|] eqn:Eg.
  { split; [done|]. by exists "". }
  destruct (compute (colleges st)) as [v'|].
  2: { split; [done|]. by exists "". }
  cbn [snd with_cache cache]. unfold NodeCache.set. split.
  - intros key v e Hk He. rewrite lookup_insert_ne; [done|]. intros <-.
    assert (NodeCache.get now k (cache st) = Some v) as Hhit
        by (apply NodeCache_get_live; by exists e).
    congruence.
  - exists k. intros key Hne. by rewrite lookup_insert_ne.
Qed.

Lemma live_entries_are_kept_witness :
  let st := (handle 0 GetAllStates (run boot [CsvRows scenario]).1).2 in
  cache (handle 5 (GetDistricts "x") st).2 !! "allstates"
  = Some (Names [Some "X"; Some "Y"], 600000).
Proof.
  intros st.
  apply (proj1 (live_entries_are_kept 5 (GetDistricts "x") st)); [|lia].
  vm_compute. reflexivity.
Defined.

(** ** Status codes *)

Lemma plan_direct (r : request) (answer : list college -> reply) :
  plan_of r = Direct answer ->
  (forall cs, exists p, answer cs = Reply 200 p)
  \/ exists errors, errors <> [] /\ answer = fun _ => Reply 400 (Errors errors).
Proof.
  destruct r as [| |body|state query body|district query body| |state];
    cbn [plan_of]; try done.
  - intros [= <-]. left. eauto.
  - intros [= <-]. left. eauto.
  - unfold search_plan.
    destruct (Validator.keyword_chain (body !! "keyword")) as [kw_errors trimmed].
    destruct (kw_errors ++ _) as [|e errors]; [done|].
    intros [= <-]. right. by exists (e :: errors).
  - unfold field_plan. destruct (Validator.paging_chains body) as [|e errors]; [done|].
    intros [= <-]. right. by exists (e :: errors).
  - unfold field_plan. destruct (Validator.paging_chains body) as [|e errors]; [done|].
    intros [= <-]. right. by exists (e :: errors).
Qed.

(** Every request is answered with 200, with 400 and a non-empty list of
    field errors, or with 500 and the text of the error middleware.  A 400 or
    500 leaves the server as it was: nothing is cached for a request that
    failed.  The root, the total and the state listing always answer 200. *)
Theorem replies_are_200_400_500 :
  (forall now r st,
      (exists p, (handle now r st).1 = Reply 200 p)
      \/ (exists errors, errors <> []
                         /\ handle now r st = (Reply 400 (Errors errors), st))
      \/ handle now r st = (Reply 500 (Text "Something broke!"), st))
  /\ (forall now st, exists p, (handle now GetRoot st).1 = Reply 200 p)
  /\ (forall now st, exists p, (handle now GetTotal st).1 = Reply 200 p)
  /\ (forall now st, exists p, (handle now GetAllStates st).1 = Reply 200 p).
Proof.
  split; [|split; [|split]].
  - intros now r st. rewrite handle_plan.
    destruct (plan_of r) as [answer|key compute] eqn:Ep; cbn [execute].
    + destruct (plan_direct r answer Ep) as [H|(errors & Hne & ->)].
      * left. cbn [fst]. apply H.
      * right. left. by exists errors.
    + destruct (NodeCache.get now key (cache st)); [left; cbn [fst]; eauto|].
      destruct (compute (colleges st)); [left; cbn [fst]; eauto|].
      right. by right.
  - intros now st. cbn. eauto.
  - intros now st. cbn. eauto.
  - intros now st. cbn [handle]. unfold get_allstates.
    destruct (NodeCache.get _ _ _); cbn [fst]; eauto.
Qed.

(** ** Cache keys across routes *)

Lemma memo_key_prefix (r : request) (key : string) (compute : list college -> option payload) :
  plan_of r = Memo key compute ->
  exists tail, chars key = chars (key_prefix r) ++ tail.
Proof.
  destruct r as [| |body|state query body|district query body| |state];
    cbn [plan_of key_prefix]; try done.
  - unfold search_plan.
    destruct (Validator.keyword_chain (body !! "keyword")) as [kw_errors trimmed].
    destruct (kw_errors ++ _) as [|e errors]; [|done].
    intros [= <- _]. unfold cache_key. rewrite !chars_app. eexists. reflexivity.
  - unfold field_plan. destruct (Validator.paging_chains body) as [|e errors]; [|done].
    intros [= <- _]. unfold cache_key. rewrite !chars_app. eexists. reflexivity.
  - unfold field_plan. destruct (Validator.paging_chains body) as [|e errors]; [|done].
    intros [= <- _]. unfold cache_key. rewrite !chars_app. eexists. reflexivity.
  - intros [= <- _]. by exists [].
  - intros [= <- _]. rewrite chars_app. eexists. reflexivity.
Qed.

(** Two requests that reach the cache under the same key were routed by the
    same path: the tags [search:], [state:], [district:], [districts:] and
    the key [allstates] keep the routes apart, whatever the parameters. *)
Theorem routes_have_disjoint_keys (r1 r2 : request) (key : string)
        (c1 c2 : list college -> option payload) :
  plan_of r1 = Memo key c1 -> plan_of r2 = Memo key c2 -> route_of r1 = route_of r2.
Proof.
  intros H1 H2.
  destruct (memo_key_prefix r1 key c1 H1) as [t1 E1].
  destruct (memo_key_prefix r2 key c2 H2) as [t2 E2].
  rewrite E1 in E2. clear E1.
  destruct r1, r2; try discriminate H1; try discriminate H2; try reflexivity;
    cbn in E2; discriminate E2.
Qed.

Lemma routes_have_disjoint_keys_witness :
  route_of (GetState "a" ∅ ∅) = route_of (GetState "a" {[ "page" := "1" ]} ∅).
Proof.
  eapply (routes_have_disjoint_keys (GetState "a" ∅ ∅)
                                    (GetState "a" {[ "page" := "1" ]} ∅)
                                    "state:a:1:10");
    reflexivity.
Defined.

(** ** Requests that share a key *)

Lemma get_by_field_plan (field : string) (now : Z) (value : string)
      (query : gmap string string) (body : gmap string jsval) (st : server) :
  get_by_field field now value query body st
  = execute now (field_plan field value query body) st.
Proof.
  unfold get_by_field, field_plan.
  destruct (Validator.paging_chains body) as [|e errors]; [|reflexivity].
  cbn [execute]. destruct (NodeCache.get _ _ _); [reflexivity|].
  by destruct (filter_result _ _ _).
Qed.

(** A plan has written its entry; within the 600 seconds a second plan with
    the same key is served that entry, whatever it would compute itself. *)
Lemma execute_shared_key (now now' : Z) (key : string)
      (c1 c2 : list college -> option payload) (st : server) :
  (execute now (Memo key c1) st).2 <> st -> now' <= now + 600000 ->
  exists v,
    c1 (colleges st) = Some v
    /\ (execute now' (Memo key c2) (execute now (Memo key c1) st).2).1 = Reply 200 v
    /\ (execute now' (Memo key c2) {| colleges := colleges st; cache := ∅ |}).1
       = from_option (Reply 200) something_broke (c2 (colleges st)).
Proof.
  intros (k & c & v & [= <- <-] & Hmiss & Hv & ->)%execute_writes Hnow.
  exists v. split; [done|]. cbn [execute snd with_cache cache colleges fst].
  rewrite NodeCache_get_set, (proj2 (Z.ltb_ge _ _)) by lia. split; [done|].
  unfold NodeCache.get at 1. rewrite lookup_empty. by destruct (c2 (colleges st)).
Qed.

(** Cache transparency for a repeated request: while no row is pushed in
    between, the reply served from the cache is the reply the same request
    gets from the same dataset with an empty cache. *)
Theorem repeated_request_is_transparent (now now' : Z) (r : request) (st : server) :
  (handle now r st).2 <> st -> now' <= now + 600000 ->
  (handle now' r (handle now r st).2).1
  = (handle now' r {| colleges := colleges st; cache := ∅ |}).1.
Proof.
  rewrite !handle_plan. intros Hw Hnow.
  destruct (plan_of r) as [answer|key compute]; [by destruct Hw|].
  destruct (execute_shared_key now now' key compute compute st Hw Hnow)
    as (v & Hv & -> & ->).
  by rewrite Hv.
Qed.

Lemma repeated_request_is_transparent_witness :
  let st := {| colleges := scenario; cache := ∅ |} in
  (handle 600000 (GetDistricts "x") (handle 0 (GetDistricts "x") st).2).1
  = (handle 600000 (GetDistricts "x") st).1.
Proof.
  intros st. apply (repeated_request_is_transparent 0 600000 (GetDistricts "x") st); [|lia].
  intros E. apply (f_equal (fun s => cache s !! "districts:x")) in E.
  vm_compute in E. discriminate.
Defined.

Lemma optional_int_default (field : string) (min : Z) (max : option Z)
      (v : option jsval) (d : jsval) :
  Validator.optional_int field min max v = [] ->
  Validator.isInt min max (Some d) = true ->
  Validator.isInt min max (Some (default d v)) = true.
Proof.
  unfold Validator.optional_int. destruct v as [v|]; [|done]. cbn [from_option id].
  by destruct (Validator.isInt min max (Some v)).
Qed.

Lemma search_plan_Memo (body : gmap string jsval) (key : string)
      (compute : list college -> option payload) :
  search_plan body = Memo key compute ->
  exists keyword page limit,
    key = cache_key "search" keyword page limit
    /\ compute = (fun cs => (fun result => Paged (search_response result page limit))
                              <$> search_result cs keyword)
    /\ Validator.isInt 1 None (Some page) = true
    /\ Validator.isInt 1 (Some 100) (Some limit) = true.
Proof.
  unfold search_plan.
  destruct (Validator.keyword_chain (body !! "keyword")) as [kw_errors trimmed].
  destruct (kw_errors ++ _) as [|e errors] eqn:E; [|done].
  apply app_eq_nil in E as [_ E]. unfold Validator.paging_chains in E.
  apply app_eq_nil in E as [Ep El].
  intros [= <- <-]. eexists _, _, _. split; [done|]. split; [done|]. split.
  - by apply (optional_int_default "page").
  - by apply (optional_int_default "limit").
Qed.

(** Two accepted searches that build the same key ask for the same results.
    When the first has been computed and cached, the second is served its
    entry within the 600 seconds, and that entry has the [data], [total] and
    [totalPages] a recomputation gives; its [page] and [limit] are the
    recomputed ones as numbers, though one may be a string where the other
    is a number. *)
Theorem shared_search_key (now now' : Z) (b1 b2 : gmap string jsval) (st : server)
        (key : string) (c1 c2 : list college -> option payload) :
  plan_of (PostSearch b1) = Memo key c1 -> plan_of (PostSearch b2) = Memo key c2 ->
  (handle now (PostSearch b1) st).2 <> st -> now' <= now + 600000 ->
  exists hit fresh,
    (handle now' (PostSearch b2) (handle now (PostSearch b1) st).2).1
    = Reply 200 (Paged hit)
    /\ (handle now' (PostSearch b2) {| colleges := colleges st; cache := ∅ |}).1
       = Reply 200 (Paged fresh)
    /\ data hit = data fresh /\ total hit = total fresh
    /\ totalPages hit = totalPages fresh
    /\ ToNumber (page hit) = ToNumber (page fresh)
    /\ ToNumber (limit hit) = ToNumber (limit fresh).
Proof.
  intros H1 H2. rewrite !handle_plan, H1, H2. intros Hw Hnow.
  destruct (execute_shared_key now now' key c1 c2 st Hw Hnow) as (v & Hv & -> & ->).
  cbn [plan_of] in H1, H2.
  apply search_plan_Memo in H1 as (kw1 & p1 & l1 & Hk1 & -> & Hp1 & Hl1).
  apply search_plan_Memo in H2 as (kw2 & p2 & l2 & Hk2 & -> & Hp2 & Hl2).
  rewrite Hk1 in Hk2.
  destruct (same_key_same_query _ _ _ _ _ _ _ Hp1 Hl1 Hp2 Hl2 Hk2) as (<- & Ep & El).
  destruct (search_result (colleges st) kw1) as [r|] eqn:Er; [|done].
  injection Hv as <-. cbn [fmap option_fmap option_map from_option].
  eexists _, _. split; [done|]. split; [done|].
  by apply (search_response_by_key kw1 kw1 p1 l1 p2 l2 (colleges st)).
Qed.

Lemma shared_search_key_witness :
  let st := {| colleges := scenario; cache := ∅ |} in
  let b1 : gmap string jsval := {[ "keyword" := JStr " abc "; "page" := JStr "1" ]} in
  let b2 : gmap string jsval := {[ "keyword" := JStr "abc"; "limit" := JNum (Fin 10) ]} in
  exists hit fresh,
    (handle 5 (PostSearch b2) (handle 0 (PostSearch b1) st).2).1 = Reply 200 (Paged hit)
    /\ (handle 5 (PostSearch b2) {| colleges := colleges st; cache := ∅ |}).1
       = Reply 200 (Paged fresh)
    /\ data hit = data fresh /\ total hit = total fresh
    /\ totalPages hit = totalPages fresh
    /\ ToNumber (page hit) = ToNumber (page fresh)
    /\ ToNumber (limit hit) = ToNumber (limit fresh).
Proof.
  intros st b1 b2.
  eapply (shared_search_key 0 5 b1 b2 st "search:abc:1:10"); [reflexivity|reflexivity| |lia].
  intros E. apply (f_equal (fun s => cache s !! "search:abc:1:10")) in E.
  vm_compute in E. discriminate.
Defined.

Lemma field_plan_Memo (field value : string) (query : gmap string string)
      (body : gmap string jsval) (key : string)
      (compute : list college -> option payload) :
  field_plan field value query body = Memo key compute ->
  let page := default (JNum (Fin 1)) (JStr <$> query !! "page") in
  let limit := default (JNum (Fin 10)) (JStr <$> query !! "limit") in
  key = cache_key field value page limit
  /\ compute = (fun cs => (fun result => Paged (filter_response result page limit))
                            <$> filter_result field value cs).
Proof.
  unfold field_plan. destruct (Validator.paging_chains body) as [|e errors]; [|done].
  by intros [= <- <-].
Qed.

Lemma query_default_text (d : Z) (o : option string) :
  ToString (default (JNum (Fin d)) (JStr <$> o)) = default (pretty d) o.
Proof. by destruct o. Qed.

Lemma query_default_number (d : Z) (o : option string) :
  ToNumber (default (JNum (Fin d)) (JStr <$> o)) = JsNum.of_string (default (pretty d) o).
Proof.
  destruct o as [s|]; [done|]. simpl. symmetry.
  apply parse_int_of_string, parse_int_pretty.
Qed.

(** On the state and district routes a page and a limit without a colon make
    the key determine the request: two requests that build the same key name
    the same value, and the second, served the entry of the first within the
    600 seconds, gets the reply a recomputation gives. *)
Theorem shared_field_key (field : string) (now now' : Z) (v1 v2 : string)
        (q1 q2 : gmap string string) (b1 b2 : gmap string jsval) (st : server)
        (key : string) (c1 c2 : list college -> option payload) :
  field_plan field v1 q1 b1 = Memo key c1 -> field_plan field v2 q2 b2 = Memo key c2 ->
  map_Forall (fun _ s => ":"%char ∉ chars s) q1 ->
  map_Forall (fun _ s => ":"%char ∉ chars s) q2 ->
  (get_by_field field now v1 q1 b1 st).2 <> st -> now' <= now + 600000 ->
  v1 = v2
  /\ (get_by_field field now' v2 q2 b2 (get_by_field field now v1 q1 b1 st).2).1
     = (get_by_field field now' v2 q2 b2 {| colleges := colleges st; cache := ∅ |}).1.
Proof.
  intros H1 H2 Hq1 Hq2. rewrite !get_by_field_plan, H1, H2. intros Hw Hnow.
  destruct (execute_shared_key now now' key c1 c2 st Hw Hnow) as (v & Hv & -> & ->).
  apply field_plan_Memo in H1 as [Hk1 ->]. apply field_plan_Memo in H2 as [Hk2 ->].
  rewrite Hk1 in Hk2.
  assert (forall (q : gmap string string) k d,
             map_Forall (fun _ s => ":"%char ∉ chars s) q ->
             ":"%char ∉ chars (pretty d) ->
             ":"%char ∉ chars (ToString (default (JNum (Fin d)) (JStr <$> q !! k))))
    as Hcolon.
  { intros q k d Hq Hd. rewrite query_default_text.
    destruct (q !! k) as [s|] eqn:Es; [by apply (Hq k s)|done]. }
  assert ((":"%char ∉ chars (pretty 1)) /\ (":"%char ∉ chars (pretty 10))) as [Hc1 Hc10]
      by (split; apply (bool_decide_unpack _); vm_compute; exact I).
  apply cache_key_inj in Hk2 as (<- & Ep & El); [|by apply Hcolon..].
  split; [done|].
  rewrite !query_default_text in Ep, El.
  destruct (filter_result field v1 (colleges st)) as [r|] eqn:Er; [|done].
  injection Hv as <-. cbn [fmap option_fmap option_map from_option]. do 2 f_equal.
  unfold filter_response, paginate, total_pages.
  by rewrite !query_default_number, Ep, El.
Qed.

Lemma shared_field_key_witness :
  let st := {| colleges := scenario; cache := ∅ |} in
  (get_by_field "state" 5 "X" {[ "page" := "1" ]} ∅
                (get_by_field "state" 0 "X" {[ "limit" := "10" ]} ∅ st).2).1
  = (get_by_field "state" 5 "X" {[ "page" := "1" ]} ∅
                  {| colleges := colleges st; cache := ∅ |}).1.
Proof.
  intros st.
  eapply (shared_field_key "state" 0 5 "X" "X" {[ "limit" := "10" ]}
                           {[ "page" := "1" ]} ∅ ∅ st "state:X:1:10").
  - reflexivity.
  - reflexivity.
  - apply (bool_decide_unpack _). vm_compute. exact I.
  - apply (bool_decide_unpack _). vm_compute. exact I.
  - intros E. apply (f_equal (fun s => cache s !! "state:X:1:10")) in E.
    vm_compute in E. discriminate.
  - lia.
Defined.

(** ** The validation of the search route, field by field *)

Lemma optional_int_elem (field : string) (min : Z) (max : option Z) (v : option jsval)
      (x : string) :
  x ∈ Validator.optional_int field min max v
  <-> x = field /\ ~ optional_int_in_range min max v.
Proof.
  unfold Validator.optional_int.
  destruct v as [v|]; cbn [optional_int_in_range].
  - destruct (Validator.isInt min max (Some v)) eqn:E.
    + rewrite elem_of_nil. split; [done|]. intros [_ H]. apply H.
      apply isInt_sound in E as (z & Hz & _). by exists z.
    + rewrite list_elem_of_singleton. split; [|tauto]. intros ->. split; [done|].
      intros (z & Hz%isInt_complete). congruence.
  - rewrite elem_of_nil. tauto.
Qed.

Lemma keyword_chain_elem (v : option jsval) (x : string) :
  x ∈ (Validator.keyword_chain v).1
  <-> x = "keyword" /\ ~ exists s, v = Some (JStr s) /\ trim s <> "".
Proof.
  rewrite <- keyword_chain_ok. unfold Validator.keyword_chain. cbn [fst].
  rewrite elem_of_app.
  destruct (Validator.isString v), (Validator.notEmpty _); cbn [app];
    rewrite ?elem_of_nil, ?list_elem_of_singleton.
  - split; [tauto|]. intros [_ H]. by destruct H.
  - split; [intros [[]| ->]; by split|tauto].
  - split; [intros [->|[]]; by split|tauto].
  - split; [intros [->| ->]; by split|tauto].
Qed.

(** On a body whose numbers are safe integers, the search route answers 400
    exactly when the body is not a valid one, with the errors of the chains
    in the order keyword, page, limit; a field is named among them exactly
    when its own value is wrong.  The reply comes before anything else: the
    state is returned as it was.  (The chains see a number as [String]
    prints it; from [1e21] on that is the exponent form, which [isInt]
    refuses.) *)
Theorem search_validation_by_field (now : Z) (body : gmap string jsval) (st : server) :
  safe_body body ->
  (search_errors body = [] <-> valid_search_body body)
  /\ (search_errors body <> [] ->
      post_search now body st = (Reply 400 (Errors (search_errors body)), st))
  /\ (search_errors body = [] ->
      forall errors, (post_search now body st).1 <> Reply 400 (Errors errors))
  /\ (forall x, x ∈ search_errors body
                <-> (x = "keyword"
                     /\ ~ exists s, body !! "keyword" = Some (JStr s) /\ trim s <> "")
                    \/ (x = "page" /\ ~ optional_int_in_range 1 None (body !! "page"))
                    \/ (x = "limit"
                        /\ ~ optional_int_in_range 1 (Some 100) (body !! "limit"))).
Proof.
  intros _. split; [apply search_validation_ok|]. split; [|split].
  - unfold search_errors, post_search.
    destruct (Validator.keyword_chain (body !! "keyword")) as [kw_errors trimmed].
    cbn [fst snd]. by destruct (kw_errors ++ _).
  - intros E. apply post_search_accepts. by apply search_validation_ok.
  - intros x. unfold search_errors, Validator.paging_chains.
    rewrite !lookup_insert_ne by done.
    rewrite !elem_of_app, keyword_chain_elem, !optional_int_elem. tauto.
Qed.

Lemma search_validation_by_field_witness :
  post_search 0 {[ "keyword" := JStr "  "; "limit" := JNum (Fin 101) ]} boot
  = (Reply 400 (Errors ["keyword"; "limit"]), boot).
Proof.
  refine (proj1 (proj2 (search_validation_by_field 0
                          {[ "keyword" := JStr "  "; "limit" := JNum (Fin 101) ]} boot _)) _).
  - apply (bool_decide_unpack _). vm_compute. exact I.
  - vm_compute. discriminate.
Defined.

(** ** Sanitizing and defaults *)

(** The keyword is trimmed by the validation chain before the handler reads
    it: a keyword sent with white space around it is, for the key, the
    filter and the reply, the trimmed keyword. *)
Theorem search_trims_keyword (now : Z) (body : gmap string jsval) (s : string)
        (st : server) :
  body !! "keyword" = Some (JStr s) ->
  post_search now body st
  = post_search now (<["keyword" := JStr (trim s)]> body) st.
Proof.
  intros Hk. unfold post_search. rewrite lookup_insert_eq, Hk.
  unfold Validator.keyword_chain. cbn [Validator.to_string Validator.isString].
  rewrite trim_idempotent, insert_insert_eq. reflexivity.
Qed.

Lemma search_trims_keyword_witness :
  post_search 0 {[ "keyword" := JStr "  abc " ]} boot
  = post_search 0 {[ "keyword" := JStr "abc" ]} boot.
Proof.
  rewrite (search_trims_keyword 0 {[ "keyword" := JStr "  abc " ]} "  abc " boot)
    by (vm_compute; reflexivity).
  vm_compute. reflexivity.
Defined.

(** Leaving [page] or [limit] out is asking for page 1 and limit 10: on the
    search route the request is handled as if the body carried the numbers
    [1] and [10], on the state and district routes as if the query string
    carried [page=1] and [limit=10].  Reply, cache key and resulting state
    are the same. *)
Theorem omitted_paging_defaults (now : Z) (st : server) :
  (forall body : gmap string jsval,
      body !! "page" = None ->
      post_search now body st = post_search now (<["page" := JNum (Fin 1)]> body) st)
  /\ (forall body : gmap string jsval,
         body !! "limit" = None ->
         post_search now body st = post_search now (<["limit" := JNum (Fin 10)]> body) st)
  /\ (forall field value (query : gmap string string) (body : gmap string jsval),
         query !! "page" = None ->
         get_by_field field now value query body st
         = get_by_field field now value (<["page" := "1"]> query) body st)
  /\ (forall field value (query : gmap string string) (body : gmap string jsval),
         query !! "limit" = None ->
         get_by_field field now value query body st
         = get_by_field field now value (<["limit" := "10"]> query) body st).
Proof.
  split; [|split; [|split]].
  - intros body Hp. unfold post_search. rewrite lookup_insert_ne by done.
    destruct (Validator.keyword_chain (body !! "keyword")) as [kw_errors trimmed].
    rewrite (insert_insert_ne body "keyword" "page") by done.
    unfold Validator.paging_chains.
    rewrite !lookup_insert_eq, !(lookup_insert_ne _ "page" "limit") by done.
    rewrite !(lookup_insert_ne _ "keyword") by done. rewrite Hp. reflexivity.
  - intros body Hl. unfold post_search. rewrite lookup_insert_ne by done.
    destruct (Validator.keyword_chain (body !! "keyword")) as [kw_errors trimmed].
    rewrite (insert_insert_ne body "keyword" "limit") by done.
    unfold Validator.paging_chains.
    rewrite !lookup_insert_eq, !(lookup_insert_ne _ "limit" "page") by done.
    rewrite !(lookup_insert_ne _ "keyword") by done. rewrite Hl. reflexivity.
  - intros field value query body Hp. unfold get_by_field.
    rewrite lookup_insert_eq, lookup_insert_ne, Hp by done. reflexivity.
  - intros field value query body Hl. unfold get_by_field.
    rewrite lookup_insert_eq, lookup_insert_ne, Hl by done. reflexivity.
Qed.

Lemma omitted_paging_defaults_witness :
  post_search 0 {[ "keyword" := JStr "abc" ]} boot
  = post_search 0 {[ "keyword" := JStr "abc"; "page" := JNum (Fin 1); "limit" := JNum (Fin 10) ]} boot
  /\ get_state 0 "X" ∅ ∅ boot = get_state 0 "X" {[ "page" := "1" ]} ∅ boot.
Proof.
  destruct (omitted_paging_defaults 0 boot) as (Hp & Hl & Hq & _). split.
  - rewrite (Hl {[ "keyword" := JStr "abc" ]}) by (vm_compute; reflexivity).
    rewrite (Hp (<["limit" := JNum (Fin 10)]> {[ "keyword" := JStr "abc" ]}))
      by (vm_compute; reflexivity).
    vm_compute. reflexivity.
  - rewrite (Hq "state" "X" ∅ ∅) by (vm_compute; reflexivity).
    vm_compute. reflexivity.
Defined.

(** ** More on the slice *)

(** How many records a page holds.  For a page [p] and a limit [l] that are
    safe integers from 1 up, over [n] results, it is
    [min l (n - (p - 1) * l)], or nothing when that is negative; so every
    page before page [totalPages] is full, page [totalPages] is not empty,
    and every page after it is empty. *)
Theorem page_lengths (A : Type) (result : list A) (page limit : jsval) (p l : Z) :
  ToNumber page = Fin p -> ToNumber limit = Fin l -> 1 <= p -> 1 <= l ->
  safe_integer p -> safe_integer l ->
  let n := Z.of_nat (length result) in
  let got := Z.of_nat (length (paginate result page limit)) in
  got = Z.max 0 (Z.min l (n - (p - 1) * l))
  /\ forall k, total_pages result limit = Fin k ->
               (p < k -> got = l)
               /\ (p = k -> 1 <= got)
               /\ (k < p -> paginate result page limit = []).
Proof.
  intros Hp Hl Hp1 Hl1 _ _ n got.
  assert (0 <= (p - 1) * l) as Hoff by nia.
  assert (got = Z.max 0 (Z.min l (n - (p - 1) * l))) as Hgot.
  { unfold got. rewrite (paginate_valid result page limit p l) by done.
    rewrite length_take, length_drop. unfold n. lia. }
  split; [done|]. intros k Hk. unfold total_pages in Hk. rewrite Hl in Hk.
  destruct (ceil_div_pos n l Hl1) as (k' & Hk' & Hlo & Hhi).
  fold n in Hk. rewrite Hk' in Hk. injection Hk as ->.
  split; [|split].
  - intros Hlt. assert (p * l <= l * (k - 1)) by nia. lia.
  - intros ->. lia.
  - intros Hgt. apply length_zero_iff_nil.
    assert (l * k <= (p - 1) * l) by nia.
    assert (got = 0) as H0 by lia. unfold got in H0. lia.
Qed.

Lemma page_lengths_witness :
  Z.of_nat (length (paginate (seq 0 25) (JStr "3") (JNum (Fin 10)))) = 5
  /\ Z.of_nat (length (paginate (seq 0 25) (JStr "2") (JNum (Fin 10)))) = 10.
Proof.
  assert (safe_integer 2 /\ safe_integer 3 /\ safe_integer 10) as (S2 & S3 & S10)
      by (repeat split; reflexivity).
  destruct (page_lengths nat (seq 0 25) (JStr "3") (JNum (Fin 10)) 3 10
              eq_refl eq_refl ltac:(lia) ltac:(lia) S3 S10) as [E3 _].
  destruct (page_lengths nat (seq 0 25) (JStr "2") (JNum (Fin 10)) 2 10
              eq_refl eq_refl ltac:(lia) ltac:(lia) S2 S10) as [_ E2].
  split; [exact E3|]. apply (E2 3 eq_refl). lia.
Defined.

Lemma not_numeric_NaN (v : jsval) : not_numeric v = true -> ToNumber v = NaN.
Proof.
  destruct v as [n|s]; [done|]. cbn [not_numeric ToNumber]. unfold JsNum.of_string.
  destruct (chars (trim s)) as [|c t] eqn:E; [done|].
  unfold starts_number. destruct (JsNum.digit_val c) eqn:Ed; [done|].
  intros H. apply negb_true_iff in H.
  apply orb_false_iff in H as [H HI]. apply orb_false_iff in H as [H Hdot].
  apply orb_false_iff in H as [Hplus Hminus].
  rewrite decide_False; [|intros E'; by rewrite E' in E].
  unfold JsNum.parse_int. rewrite E. cbn [JsNum.parse_int_chars JsNum.parse_digits].
  rewrite Hminus, Hplus. cbn [JsNum.digits_val]. rewrite Ed.
  apply is_char_false in HI, Hplus, Hminus.
  rewrite decide_False; [|intros [E'|E']; rewrite E' in E; injection E; congruence].
  rewrite decide_False; [done|].
  intros E'; rewrite E' in E; injection E; congruence.
Qed.

(** Values that only the unvalidated query string of the state and district
    routes can bring to the slice.  A page or a limit that is no number (a
    text that starts, behind its white space, with a character no numeric
    literal starts with), page 0 with a safe limit that is not negative, and
    limit 0 with a safe page all give an empty page, not an error. *)
Theorem degenerate_pages_are_empty (A : Type) (result : list A) (page limit : jsval) :
  not_numeric page = true
  \/ not_numeric limit = true
  \/ (ToNumber page = Fin 0
      /\ exists l, ToNumber limit = Fin l /\ 0 <= l /\ safe_integer l)
  \/ (ToNumber limit = Fin 0 /\ exists p, ToNumber page = Fin p /\ safe_integer p) ->
  paginate result page limit = [].
Proof.
  unfold paginate, slice.
  intros [Hp%not_numeric_NaN | [Hl%not_numeric_NaN
                               | [[-> (l & -> & Hl & _)] | [-> (p & -> & _)]]]].
  - by rewrite Hp.
  - rewrite Hl. by destruct (ToNumber page).
  - cbn [JsNum.sub JsNum.mul rel_index].
    replace (0 * l) with 0 by lia. cbn [Z.ltb Z.compare].
    rewrite (Z.min_l 0) by lia.
    destruct ((0 - 1) * l <? 0) eqn:E.
    + replace (Z.to_nat _) with 0%nat by lia. apply take_0.
    + apply Z.ltb_ge in E. replace (Z.to_nat _) with 0%nat by lia. apply take_0.
  - cbn [JsNum.sub JsNum.mul rel_index]. rewrite !Z.mul_0_r. cbn [Z.ltb Z.compare].
    rewrite Z.min_l by lia. apply take_0.
Qed.

Lemma degenerate_pages_are_empty_witness :
  paginate scenario (JStr "abc") (JNum (Fin 10)) = []
  /\ paginate scenario (JStr "0") (JStr "10") = []
  /\ paginate scenario (JNum (Fin 1)) (JStr "0") = [].
Proof.
  split; [|split]; apply (degenerate_pages_are_empty college).
  - left. reflexivity.
  - right. right. left. split; [reflexivity|]. exists 10.
    split; [reflexivity|]. split; [lia|split; reflexivity].
  - right. right. right. split; [reflexivity|]. exists 1.
    split; [reflexivity|split; reflexivity].
Defined.

(** A negative page, which again only the unvalidated query string can
    bring, counts blocks from the end: with page [-q] the slice runs from
    [(q + 1) * limit] before the end to [q * limit] before the end, both
    clamped at the start of the results. *)
Theorem negative_page_counts_from_end (A : Type) (result : list A)
        (page limit : jsval) (q l : Z) :
  ToNumber page = Fin (- q) -> ToNumber limit = Fin l -> 1 <= q -> 1 <= l ->
  let n := Z.of_nat (length result) in
  let from := Z.max (n - (q + 1) * l) 0 in
  let to := Z.max (n - q * l) 0 in
  paginate result page limit = take (Z.to_nat (to - from)) (drop (Z.to_nat from) result)
  /\ ((q + 1) * l <= n ->
      paginate result page limit
      = take (Z.to_nat l) (drop (Z.to_nat (n - (q + 1) * l)) result))
  /\ (n <= q * l -> paginate result page limit = []).
Proof.
  intros Hp Hl Hq Hl1 n from to.
  assert (paginate result page limit
          = take (Z.to_nat (to - from)) (drop (Z.to_nat from) result)) as E.
  { unfold paginate, slice. rewrite Hp, Hl. cbn [JsNum.sub JsNum.mul rel_index].
    rewrite (proj2 (Z.ltb_lt ((- q - 1) * l) 0)) by nia.
    rewrite (proj2 (Z.ltb_lt (- q * l) 0)) by nia.
    fold n. unfold from, to. do 2 f_equal; lia. }
  split; [done|]. split.
  - intros Hn. rewrite E. unfold from, to. do 2 f_equal; lia.
  - intros Hn. rewrite E. unfold from, to.
    replace (Z.to_nat _) with 0%nat by lia. apply take_0.
Qed.

Lemma negative_page_counts_from_end_witness :
  paginate (seq 0 25) (JStr "-1") (JStr "10") = seq 5 10.
Proof.
  destruct (negative_page_counts_from_end nat (seq 0 25) (JStr "-1") (JStr "10") 1 10
              eq_refl eq_refl ltac:(lia) ltac:(lia)) as (_ & E & _).
  rewrite E by (simpl; lia). reflexivity.
Defined.

(** ** The state and district filters *)




(** ** Rows with a missing column *)

Lemma filter_ex_None {A} (p : A -> option bool) (l : list A) :
  filter_ex p l = None <-> Exists (fun x => p x = None) l.
Proof.
  induction l as [|x l IH]; ex_step.
  - split; [done|]. by intros H%Exists_nil.
  - rewrite Exists_cons. destruct (p x) as [b|] eqn:Ep; ex_step.
    + destruct (filter_ex p l) as [r|]; ex_step.
      * split; [done|]. intros [?|H]; [done|]. by apply IH in H.
      * split; [|done]. intros _. right. by apply IH.
    + split; [|done]. intros _. by left.
Qed.

Lemma map_ex_None {A B} (f : A -> option B) (l : list A) :
  map_ex f l = None <-> Exists (fun x => f x = None) l.
Proof.
  induction l as [|x l IH]; ex_step.
  - split; [done|]. by intros H%Exists_nil.
  - rewrite Exists_cons. destruct (f x) as [y|] eqn:Ef; ex_step.
    + destruct (map_ex f l) as [r|]; ex_step.
      * split; [done|]. intros [?|H]; [done|]. by apply IH in H.
      * split; [|done]. intros _. right. by apply IH.
    + split; [|done]. intros _. by left.
Qed.

Lemma name_includes_None (keyword : string) (c : college) :
  name_includes keyword c = None <-> c !! "name" = None.
Proof. unfold name_includes. by destruct (c !! "name"). Qed.

Lemma with_clean_name_None (c : college) :
  with_clean_name c = None <-> c !! "name" = None.
Proof. unfold with_clean_name. by destruct (c !! "name"). Qed.

Lemma field_matches_None (field value : string) (c : college) :
  field_matches field value c = None <-> c !! field = None.
Proof. unfold field_matches. by destruct (c !! field). Qed.

Lemma filter_ex_hits {A} (p : A -> option bool) (l hits : list A) (x : A) :
  filter_ex p l = Some hits -> (x ∈ hits <-> x ∈ l /\ p x = Some true).
Proof.
  revert hits. induction l as [|y l IH]; intros hits; ex_step.
  - intros [= <-]. rewrite !elem_of_nil. tauto.
  - destruct (p y) as [b|] eqn:Ep; [|done]. ex_step.
    destruct (filter_ex p l) as [r|]; [|done]. ex_step. intros [= <-].
    specialize (IH r eq_refl). rewrite elem_of_cons.
    destruct b; rewrite ?elem_of_cons, IH.
    + split; [intros [->|[? ?]]; auto|]. intros [[->|?] ?]; auto.
    + split; [intros [? ?]; auto|]. intros [[->|?] ?]; [congruence|auto].
Qed.

(** The search throws, and the route answers 500, exactly when some row of
    the dataset has no [name], whether or not that row would match: the
    filter reads the name of every row.  Nothing is cached then.  The
    request is one the validation lets through: a valid body whose numbers
    are safe integers. *)
Theorem search_throws_on_nameless_row (rows : list college) (keyword : string) :
  (search_result rows keyword = None
   <-> Exists (fun c : college => c !! "name" = None) rows)
  /\ forall now (body : gmap string jsval),
      safe_body body -> valid_search_body body ->
      Exists (fun c : college => c !! "name" = None) rows ->
      post_search now body {| colleges := rows; cache := ∅ |}
      = (Reply 500 (Text "Something broke!"), {| colleges := rows; cache := ∅ |}).
Proof.
  assert (forall kw, search_result rows kw = None
                     <-> Exists (fun c : college => c !! "name" = None) rows) as Hiff.
  { intros kw. unfold search_result.
    destruct (filter_ex (name_includes kw) rows) as [hits|] eqn:Ef; ex_step.
    - rewrite map_ex_None. split.
      + intros (c & Hc & Hn)%Exists_exists. apply Exists_exists. exists c.
        split; [|by apply with_clean_name_None].
        by apply (filter_ex_hits _ _ _ c Ef) in Hc as [Hc _].
      + intros H. exfalso.
        assert (filter_ex (name_includes kw) rows = None) as Hf; [|congruence].
        apply filter_ex_None. eapply Exists_impl; [exact H|].
        intros c Hc. exact (proj2 (name_includes_None kw c) Hc).
    - split; [|done]. intros _. apply filter_ex_None in Ef.
      eapply Exists_impl; [exact Ef|]. intros c Hc.
      exact (proj1 (name_includes_None kw c) Hc). }
  split; [apply Hiff|].
  intros now body _ Hv Hex. apply search_validation_ok in Hv. unfold post_search.
  destruct (Validator.keyword_chain (body !! "keyword")) as [kw_errors trimmed].
  cbn [fst snd] in Hv. rewrite Hv. cbn [cache colleges].
  unfold NodeCache.get. rewrite lookup_empty.
  by rewrite (proj2 (Hiff trimmed) Hex).
Qed.

Lemma search_throws_on_nameless_row_witness :
  post_search 0 {[ "keyword" := JStr "abc" ]}
              {| colleges := scenario ++ [ {[ "state" := "Y" ]} ]; cache := ∅ |}
  = (Reply 500 (Text "Something broke!"),
     {| colleges := scenario ++ [ {[ "state" := "Y" ]} ]; cache := ∅ |}).
Proof.
  apply (proj2 (search_throws_on_nameless_row (scenario ++ [ {[ "state" := "Y" ]} ]) "")).
  - apply (bool_decide_unpack _). vm_compute. exact I.
  - apply search_validation_ok. vm_compute. reflexivity.
  - apply Exists_app. right. left. vm_compute. reflexivity.
Defined.

(** The state and district filters throw exactly when some row lacks the
    column filtered on, or some row that matches lacks a [name]; a row
    without a name that does not match does no harm.  The district listing
    of a state throws exactly when some row lacks [state]. *)
Theorem filters_throw_on_missing_column (colleges : list college) :
  (forall field value,
      filter_result field value colleges = None
      <-> Exists (fun c : college => c !! field = None) colleges
          \/ Exists (fun c : college => field_is field value c /\ c !! "name" = None)
                    colleges)
  /\ (forall state,
         districts_of state colleges = None
         <-> Exists (fun c : college => c !! "state" = None) colleges).
Proof.
  assert (forall field value,
             filter_ex (field_matches field value) colleges = None
             <-> Exists (fun c : college => c !! field = None) colleges) as Hf.
  { intros field value. rewrite filter_ex_None. split; intros H;
      (eapply Exists_impl; [exact H|]); intros c Hc;
      [exact (proj1 (field_matches_None field value c) Hc)
      |exact (proj2 (field_matches_None field value c) Hc)]. }
  split.
  - intros field value. unfold filter_result.
    destruct (filter_ex (field_matches field value) colleges) as [hits|] eqn:Ef; ex_step.
    + rewrite map_ex_None. split.
      * intros (c & Hc & Hn)%Exists_exists. right. apply Exists_exists. exists c.
        apply (filter_ex_hits _ _ _ c Ef) in Hc as [Hc Hm].
        split; [done|]. split; [|by apply with_clean_name_None].
        unfold field_matches in Hm. destruct (c !! field) as [v|] eqn:Ev; [|done].
        injection Hm as Hm. apply bool_decide_eq_true in Hm. by exists v.
      * intros [H|H]; [apply (proj2 (Hf field value)) in H; congruence|].
        apply Exists_exists in H as (c & Hc & (v & Hv & Hm) & Hn).
        apply Exists_exists. exists c. split; [|by apply with_clean_name_None].
        apply (filter_ex_hits _ _ _ c Ef). split; [done|].
        unfold field_matches. rewrite Hv. ex_step. by rewrite bool_decide_eq_true_2.
    + split; [|done]. intros _. left. exact (proj1 (Hf field value) Ef).
  - intros state. unfold districts_of.
    destruct (filter_ex (field_matches "state" state) colleges) as [hits|] eqn:Ef; ex_step.
    + split; [done|]. intros H. apply (proj2 (Hf "state" state)) in H. congruence.
    + split; [|done]. intros _. exact (proj1 (Hf "state" state) Ef).
Qed.

Lemma filters_throw_on_missing_column_witness :
  filter_result "state" "X" (scenario ++ [ {[ "state" := "Y" ]} ]) <> None
  /\ filter_result "state" "Y" (scenario ++ [ {[ "state" := "Y" ]} ]) = None.
Proof.
  split.
  - apply (bool_decide_unpack _). vm_compute. exact I.
  - apply (proj1 (filters_throw_on_missing_column _)). right.
    apply Exists_app. right. left. split; [|vm_compute; reflexivity].
    exists "Y". split; vm_compute; reflexivity.
Defined.

(** ** More on the listings *)

Lemma sorted_None_last (l1 l2 : list (option string)) :
  StronglySorted sort_le (l1 ++ None :: l2) -> NoDup (l1 ++ None :: l2) -> l2 = [].
Proof.
  intros Hs Hn. apply StronglySorted_app_1_r in Hs.
  apply NoDup_app in Hn as (_ & _ & Hn).
  apply StronglySorted_inv in Hs as [_ Hall]. apply NoDup_cons in Hn as [Hnot _].
  destruct l2 as [|y l2]; [done|]. exfalso.
  apply Forall_cons in Hall as [Hy _]. destruct y; [done|]. apply Hnot. left.
Qed.

(** The state listing never throws.  Rows without a [state] show in it as
    one [undefined] (a JSON [null]), which the sort puts after every string;
    there is one exactly when such a row exists.  The listing of the empty
    dataset is empty. *)
Theorem all_states_with_missing_state (colleges : list college) :
  (None ∈ all_states colleges
   <-> exists c : college, c ∈ colleges /\ c !! "state" = None)
  /\ (forall strings rest, all_states colleges = strings ++ None :: rest -> rest = [])
  /\ all_states [] = [].
Proof.
  unfold all_states.
  destruct (sort_spec (new_Set (map (fun c : college => c !! "state") colleges)))
    as (Hnd & Hs & Hel); [apply NoDup_new_Set|].
  split; [|split; [|reflexivity]].
  - rewrite Hel, elem_of_new_Set, list_elem_of_fmap.
    split; [intros (c & E & Hc)|intros (c & Hc & E)]; by exists c.
  - intros strings rest E. rewrite E in Hnd, Hs. by eapply sorted_None_last.
Qed.

(** The listings depend on which values occur, not on where or how often:
    two datasets with the same set of states have the same state listing. *)
Theorem all_states_by_value_set (l1 l2 : list college) :
  (forall v, (exists c : college, c ∈ l1 /\ c !! "state" = v)
             <-> (exists c : college, c ∈ l2 /\ c !! "state" = v)) ->
  all_states l1 = all_states l2.
Proof.
  intros Hsame. unfold all_states. apply sorted_unique_arrangement.
  - apply sort_spec, NoDup_new_Set.
  - apply NoDup_Permutation.
    + apply sort_spec, NoDup_new_Set.
    + apply NoDup_new_Set.
    + intros v.
      rewrite (proj2 (proj2 (sort_spec _ (NoDup_new_Set _)))).
      rewrite !elem_of_new_Set, !list_elem_of_fmap. split.
      * intros (c & -> & Hc). destruct (proj1 (Hsame (c !! "state"))) as (c' & Hc' & E);
          [by exists c|]. by exists c'.
      * intros (c & -> & Hc). destruct (proj2 (Hsame (c !! "state"))) as (c' & Hc' & E);
          [by exists c|]. by exists c'.
Qed.

Lemma all_states_by_value_set_witness :
  all_states (reverse scenario ++ scenario) = all_states scenario.
Proof.
  apply all_states_by_value_set. intros v.
  split; intros (c & Hc & E); exists c; (split; [|done]).
  - apply elem_of_app in Hc as [Hc|Hc]; [by apply elem_of_reverse|done].
  - apply elem_of_app. by right.
Defined.

Lemma all_states_with_missing_state_witness :
  None ∈ all_states (scenario ++ [ {[ "name" := "N" ]} ])
  /\ all_states (scenario ++ [ {[ "name" := "N" ]} ]) = [Some "X"; Some "Y"; None].
Proof.
  split; [|vm_compute; reflexivity].
  apply (proj1 (all_states_with_missing_state _)).
  exists {[ "name" := "N" ]}. split; [|vm_compute; reflexivity].
  apply elem_of_app. right. left.
Defined.

(** The district listing takes its state up to the case of letters, and for
    a state no row has it is the empty list, not an error (every row having
    a state). *)
Theorem districts_of_state_by_case (colleges : list college) :
  (forall s1 s2, toLowerCase s1 = toLowerCase s2 ->
                 districts_of s1 colleges = districts_of s2 colleges)
  /\ (forall state,
         Forall (fun c : college => is_Some (c !! "state")) colleges ->
         (forall c, c ∈ colleges -> ~ field_is "state" state c) ->
         districts_of state colleges = Some []).
Proof.
  split.
  - intros s1 s2 E. unfold districts_of.
    rewrite (filter_ex_ext (field_matches "state" s1) (field_matches "state" s2)); [done|].
    intros c. unfold field_matches. by rewrite E.
  - intros state Hf Hno. unfold districts_of.
    rewrite (filter_ex_field_matches "state" state colleges Hf). ex_step.
    replace (filter (field_is "state" state) colleges) with (@nil college); [done|].
    symmetry. apply elem_of_nil_inv. intros c [Hm Hin]%list_elem_of_filter.
    by apply (Hno c).
Qed.

Lemma districts_of_state_by_case_witness :
  districts_of "x" scenario = districts_of "X" scenario
  /\ districts_of "Goa" scenario = Some [].
Proof.
  destruct (districts_of_state_by_case scenario) as [H1 H2]. split.
  - apply H1. reflexivity.
  - apply H2.
    + apply (bool_decide_unpack _). vm_compute. exact I.
    + assert (Forall (fun c : college => ~ field_is "state" "Goa" c) scenario) as Hno
          by (apply (bool_decide_unpack _); vm_compute; exact I).
      rewrite Forall_forall in Hno. exact Hno.
Defined.

(** ** More on the name normalizer *)

Lemma thinned_length (s t : list ascii) : thinned s t -> (length t <= length s)%nat.
Proof. induction 1; simpl; lia. Qed.

Lemma clean_chars_thinned (l : list ascii) : thinned l (clean_chars l).
Proof.
  unfold clean_chars.
  eapply thinned_trans; [|apply trim_chars_thinned].
  eapply thinned_trans; [|apply strip_id_markers_thinned].
  apply replace_all_thinned. intros s r H.
  destruct s as [|c t]; [done|]. simpl in H.
  destruct (is_char ":" c) eqn:Ec; [|done]. apply is_char_true in Ec as ->.
  apply star_then_paren_Some in H as (body & -> & Hb).
  exists (":"%char :: body ++ [")"%char]).
  split; [cbn [app]; by rewrite <- app_assoc|].
  split; [done|]. rewrite not_elem_of_cons, not_elem_of_app, not_elem_of_cons.
  split; [done|]. split; [done|]. split; [done|apply not_elem_of_nil].
Qed.

(** Whatever the name, the normalizer only deletes characters (none of them
    [>]), so its result is never longer than the name; the result has no
    white space at either end; and it holds no colon from which a closing
    parenthesis could be reached without crossing [>]: one application
    removes every annotation. *)
Theorem cleanCollegeName_output (name : string) :
  thinned (chars name) (chars (cleanCollegeName name))
  /\ (String.length (cleanCollegeName name) <= String.length name)%nat
  /\ trimmed (chars (cleanCollegeName name))
  /\ ~ has_annotation (chars (cleanCollegeName name)).
Proof.
  unfold cleanCollegeName. rewrite chars_str.
  pose proof (clean_chars_thinned (chars name)) as Ht.
  split; [done|]. split; [|split].
  - apply thinned_length in Ht.
    assert (forall s, String.length s = length (chars s)) as Hlen.
    { intros s. induction s as [|c s IH]; simpl; [done|]. by rewrite IH. }
    by rewrite !Hlen, chars_str.
  - apply trim_chars_trimmed.
  - intros H. apply (strip_annotations_clean (chars name)).
    eapply thinned_has_annotation; [|exact H].
    eapply thinned_trans; [apply strip_id_markers_thinned|apply trim_chars_thinned].
Qed.

(** The shape the dataset uses: a name followed by [(Id: code)].  When the
    name part has no colon and no opening parenthesis, and the code has no
    [>], the normalizer returns the name part, trimmed, whatever the case of
    [Id]. *)
Theorem cleanCollegeName_id_suffix (pre body : string) (i d : ascii) :
  ":"%char ∉ chars pre -> "("%char ∉ chars pre -> ">"%char ∉ chars body ->
  (i = "I" \/ i = "i")%char -> (d = "D" \/ d = "d")%char ->
  cleanCollegeName (pre +:+ String "(" (String i (String d (":" +:+ body +:+ ")"))))
  = trim pre.
Proof.
  intros Hc Hp Hb Hi Hd. unfold cleanCollegeName, trim, clean_chars. do 2 f_equal.
  assert (chars (pre +:+ String "(" (String i (String d (":" +:+ body +:+ ")"))))
          = (chars pre ++ ["("%char; i; d]) ++ ":"%char :: chars body ++ ")"%char :: [])
    as ->.
  { rewrite chars_app.
    change (chars (String "(" (String i (String d (":" +:+ body +:+ ")")))))
      with ("("%char :: i :: d :: ":"%char :: chars (body +:+ ")")).
    rewrite chars_app. change (chars ")") with [")"%char]. by rewrite <- app_assoc. }
  rewrite strip_annotations_span; [| |done|].
  - rewrite replace_all_nil, app_nil_r.
    rewrite strip_id_markers_span by done. by rewrite replace_all_nil, app_nil_r.
  - rewrite not_elem_of_app, !not_elem_of_cons. split; [done|].
    destruct Hi as [-> | ->], Hd as [-> | ->]; (repeat split; [done..|apply not_elem_of_nil]).
  - intros (b0 & post & E & _). by destruct b0.
Qed.

Lemma cleanCollegeName_id_suffix_witness :
  cleanCollegeName "St. Mary's College (ID: C-1234)" = "St. Mary's College".
Proof.
  refine (eq_trans (cleanCollegeName_id_suffix "St. Mary's College " " C-1234" "I" "D"
                                               _ _ _ _ _) _).
  - apply (bool_decide_unpack _). vm_compute. exact I.
  - apply (bool_decide_unpack _). vm_compute. exact I.
  - apply (bool_decide_unpack _). vm_compute. exact I.
  - by left.
  - by left.
  - reflexivity.
Defined.

(** ** The total *)

(** [/colleges/total] is never cached: it reports the number of rows pushed
    so far, whatever the cache holds, and leaves the state alone. *)
Theorem total_counts_rows_so_far (evs : list event) (now : Z) :
  handle now GetTotal (run boot evs).1
  = (Reply 200 (TotalCount (length (rows_of evs))), (run boot evs).1).
Proof.
  cbn [handle]. unfold get_total. by rewrite (colleges_run boot evs).
Qed.
